(** * AsyncCTK: a shallow embedding of async_customtkinter.py

    The class [AsyncCTK] runs three cooperative loops on one asyncio event
    loop: the Tk event pump ([_gui_mainloop]), the periodic update runner
    ([_update_func_mainloop]) and the command dispatcher
    ([_command_mainloop]).  The embedding follows the source method by
    method.  Time is logical and counted in milliseconds (the source
    divides [update_interval] by 1000 to obtain seconds; the model stays in
    milliseconds throughout). *)

From Stdlib Require Import List Arith PeanoNat Lia Bool.
From Equations Require Import Equations.
From Equations.Prop Require Import Logic.
Import ListNotations.

Set Implicit Arguments.
Set Warnings "-register-all".

(** ** Python values the program handles *)

(** Exceptions that occur in the program. *)
Inductive exn : Type :=
| TimeoutError            (* asyncio.TimeoutError *)
| TclError                (* tkinter.TclError *)
| ValueError              (* raised by list.remove *)
| UserError (code : nat). (* any other exception of user code *)

(** How an [await] ends. *)
Inductive result : Type :=
| Ok
| Err (e : exn).

(** What a user-written coroutine does once a task drives it: it returns
    after [d] milliseconds, raises after [d] milliseconds, or never
    finishes.  The source receives such coroutines as opaque inputs
    (update functions, button handlers); a duration of [0] is a coroutine
    that never suspends.  A coroutine is assumed to honour cancellation. *)
Inductive behaviour : Type :=
| Returns (d : nat)
| Raises (d : nat) (e : exn)
| Hangs.

(** A callable of type [Callable[[], Coroutine]]: a function object and
    the coroutine its call produces.  Equality of callables is Python's
    [==], which for function objects is object identity. *)
Record callable : Type := Callable {
  fn_id : nat;
  fn_body : behaviour
}.

Definition exn_eq_dec (a b : exn) : {a = b} + {a <> b}.
Proof. decide equality. apply Nat.eq_dec. Defined.

Definition behaviour_eq_dec (a b : behaviour) : {a = b} + {a <> b}.
Proof. decide equality; try apply Nat.eq_dec; apply exn_eq_dec. Defined.

Definition callable_eq_dec (a b : callable) : {a = b} + {a <> b}.
Proof. decide equality; [apply behaviour_eq_dec | apply Nat.eq_dec]. Defined.

(** ** asyncio

    The timed meaning of the asyncio constructs the source uses, as the
    asyncio documentation gives it:
    - [asyncio.sleep(s)] completes [s] seconds after it is started;
    - [asyncio.gather] schedules every coroutine among [aws] as a
      task at once; it completes when all of them have completed, and if
      one raises, that first exception is propagated immediately to
      whoever awaits the gather while the other awaitables are not
      cancelled and keep running; cancelling the gather cancels all
      awaitables that are not done yet;
    - [asyncio.wait_for(aw, timeout)] cancels [aw] when the timeout
      expires and raises TimeoutError. *)
Module Asyncio.

Inductive awaitable : Type :=
| Coro (b : behaviour)
| Sleep (ms : nat)
| Gather (aws : list awaitable)
| WaitFor (aw : awaitable) (timeout : nat).

(** Completion of an awaitable: the time and the result, [None] when it
    never completes. *)
Definition completion : Type := option (nat * result).

(** The earliest failure among completions; of two at the same time, the
    one listed first. *)
Fixpoint first_error (cs : list completion) : option (nat * exn) :=
  match cs with
  | [] => None
  | c :: rest =>
      match c, first_error rest with
      | Some (t, Err e), Some (t', e') =>
          if t <=? t' then Some (t, e) else Some (t', e')
      | Some (t, Err e), None => Some (t, e)
      | _, r => r
      end
  end.

(** The time by which all of [cs] have completed, from [s] on; [None] when
    one of them never completes. *)
Fixpoint all_done (s : nat) (cs : list completion) : option nat :=
  match cs with
  | [] => Some s
  | Some (t, _) :: rest =>
      match all_done s rest with
      | Some m => Some (Nat.max t m)
      | None => None
      end
  | None :: _ => None
  end.

Definition gather_completion (s : nat) (cs : list completion) : completion :=
  match first_error cs with
  | Some (t, e) => Some (t, Err e)
  | None =>
      match all_done s cs with
      | Some m => Some (m, Ok)
      | None => None
      end
  end.

Definition run (b : behaviour) (s : nat) : completion :=
  match b with
  | Returns d => Some (s + d, Ok)
  | Raises d e => Some (s + d, Err e)
  | Hangs => None
  end.

(** [resolve a s]: when and how [a], started at time [s], completes if
    nobody cancels it from outside. *)
Fixpoint resolve (a : awaitable) (s : nat) : completion :=
  match a with
  | Coro b => run b s
  | Sleep ms => Some (s + ms, Ok)
  | Gather aws => gather_completion s (map (fun x => resolve x s) aws)
  | WaitFor aw timeout =>
      match resolve aw s with
      | Some (t, r) =>
          if t <=? s + timeout then Some (t, r)
          else Some (s + timeout, Err TimeoutError)
      | None => Some (s + timeout, Err TimeoutError)
      end
  end.

(** What became of one coroutine. *)
Inductive fate : Type :=
| Done (t : nat) (r : result)   (* ran to its end at [t] *)
| Cancelled (t : nat)           (* cancelled at [t] while still running *)
| Running.                      (* still running, for ever *)

Definition settle (c : completion) (cancel : option nat) : fate :=
  match c, cancel with
  | Some (t, r), Some k => if k <? t then Cancelled k else Done t r
  | Some (t, r), None => Done t r
  | None, Some k => Cancelled k
  | None, None => Running
  end.

(** A request to cancel at [k] reaches the parts of a future only when
    that future is still pending at [k]. *)
Definition still_pending (c : completion) (cancel : option nat) : option nat :=
  match cancel with
  | Some k =>
      match c with
      | Some (t, _) => if t <=? k then None else Some k
      | None => Some k
      end
  | None => None
  end.

(** [fates a s cancel]: the fate of every coroutine and sleep under [a],
    in order, when [a] is started at [s] and cancelled from outside at
    [cancel] (if at all). *)
Fixpoint fates (a : awaitable) (s : nat) (cancel : option nat) : list fate :=
  match a with
  | Coro b => [settle (run b s) cancel]
  | Sleep ms => [settle (Some (s + ms, Ok)) cancel]
  | Gather aws =>
      let inner := still_pending (resolve (Gather aws) s) cancel in
      flat_map (fun x => fates x s inner) aws
  | WaitFor aw timeout =>
      let deadline :=
        match cancel with
        | Some k => Nat.min k (s + timeout)
        | None => s + timeout
        end in
      fates aw s (Some deadline)
  end.

End Asyncio.
Import Asyncio.

(** ** The state of an [AsyncCTK] object *)

(** The future [asyncio.gather(async_func())] that a wrapper puts on the
    commands queue.  [gather] turns the coroutine into a task when it is
    called, so the handler starts at the time the future is created. *)
Record command : Type := Command {
  created : nat;
  handler : callable
}.

Definition command_awaitable (c : command) : awaitable :=
  Gather [Coro (fn_body (handler c))].

(** Native events waiting in Tk's queue, by what their Python callback
    does. *)
Inductive event : Type :=
| Click (async_func : callable)   (* command=self.execute_async_command(async_func) *)
| CallAdd (update_func : callable)    (* a callback calling add_update_func *)
| CallRemove (update_func : callable) (* a callback calling remove_update_func *)
| Destroy                         (* the main window is destroyed *)
| Redraw.                         (* an event with no Python callback *)

Record AsyncCTK : Type := {
  _update_interval : nat;
  _update_funcs : list callable;
  commands_queue : list command;
  _application_closed : bool;
  _window_exists : bool;
  (* inherited from ctk.CTk *)
  tk_events : list event;
  tk_destroyed : bool
}.

Definition set_update_funcs (l : list callable) (self : AsyncCTK) : AsyncCTK :=
  {| _update_interval := _update_interval self;
     _update_funcs := l;
     commands_queue := commands_queue self;
     _application_closed := _application_closed self;
     _window_exists := _window_exists self;
     tk_events := tk_events self;
     tk_destroyed := tk_destroyed self |}.

Definition set_commands_queue (q : list command) (self : AsyncCTK) : AsyncCTK :=
  {| _update_interval := _update_interval self;
     _update_funcs := _update_funcs self;
     commands_queue := q;
     _application_closed := _application_closed self;
     _window_exists := _window_exists self;
     tk_events := tk_events self;
     tk_destroyed := tk_destroyed self |}.

Definition set_tk_events (evs : list event) (self : AsyncCTK) : AsyncCTK :=
  {| _update_interval := _update_interval self;
     _update_funcs := _update_funcs self;
     commands_queue := commands_queue self;
     _application_closed := _application_closed self;
     _window_exists := _window_exists self;
     tk_events := evs;
     tk_destroyed := tk_destroyed self |}.

Definition set_tk_destroyed (b : bool) (self : AsyncCTK) : AsyncCTK :=
  {| _update_interval := _update_interval self;
     _update_funcs := _update_funcs self;
     commands_queue := commands_queue self;
     _application_closed := _application_closed self;
     _window_exists := _window_exists self;
     tk_events := tk_events self;
     tk_destroyed := b |}.

(** ** Synchronous methods: state and exceptions *)

Inductive outcome (A : Type) : Type :=
| Value (a : A)
| Raise (e : exn).
Arguments Value {A} a.
Arguments Raise {A} e.

(** A synchronous Python method on [self]: it returns or raises, and
    leaves a state behind either way. *)
Definition Py (A : Type) : Type := AsyncCTK -> outcome A * AsyncCTK.

Definition ret {A} (a : A) : Py A := fun self => (Value a, self).

Definition raise {A} (e : exn) : Py A := fun self => (Raise e, self).

Definition bind {A B} (m : Py A) (k : A -> Py B) : Py B :=
  fun self =>
    match m self with
    | (Value a, self') => k a self'
    | (Raise e, self') => (Raise e, self')
    end.

Definition modify (f : AsyncCTK -> AsyncCTK) : Py unit :=
  fun self => (Value tt, f self).

(** [try: m / except E: ...] for the exceptions [handles] accepts: a
    handled exception is reported as [None], any other goes on. *)
Definition try_except {A} (m : Py A) (handles : exn -> bool) : Py (option A) :=
  fun self =>
    match m self with
    | (Value a, self') => (Value (Some a), self')
    | (Raise e, self') =>
        if handles e then (Value None, self') else (Raise e, self')
    end.

Definition exec {A} (m : Py A) (self : AsyncCTK) : AsyncCTK := snd (m self).

Notation "x <- m ;; k" := (bind m (fun x => k))
  (at level 61, m at next level, right associativity).

(** [AsyncCTK.__init__]; [update_interval] defaults to 1000. *)
Definition __init__ (update_interval : nat) : AsyncCTK :=
  {| _update_interval := update_interval;
     _update_funcs := [];
     commands_queue := [];
     _application_closed := false;
     _window_exists := true;        (* _prepare_async *)
     tk_events := [];
     tk_destroyed := false |}.

Definition add_update_func (update_func : callable) : Py unit :=
  modify (fun self => set_update_funcs (_update_funcs self ++ [update_func]) self).

(** [list.remove(x)]: drop the first item equal to [x]; [None] stands for
    the ValueError raised when there is none. *)
Fixpoint list_remove (x : callable) (l : list callable) : option (list callable) :=
  match l with
  | [] => None
  | y :: rest =>
      if callable_eq_dec y x then Some rest
      else match list_remove x rest with
           | Some rest' => Some (y :: rest')
           | None => None
           end
  end.

Definition remove_update_func (update_func : callable) : Py unit :=
  fun self =>
    match list_remove update_func (_update_funcs self) with
    | Some l => (Value tt, set_update_funcs l self)
    | None => (Raise ValueError, self)
    end.

(** [execute_async_command(async_func)] returns [wrapper]; [wrapper now]
    is a call of that wrapper when the event loop's clock shows [now].
    [Queue.put] on an unbounded queue appends and never blocks. *)
Definition execute_async_command (async_func : callable) : nat -> Py unit :=
  fun now =>
    modify (fun self =>
      let command := {| created := now; handler := async_func |} in
      set_commands_queue (commands_queue self ++ [command]) self).

(** ** The toolkit *)

(** The Python callback bound to an event. *)
Definition callback (e : event) (now : nat) : Py unit :=
  match e with
  | Click async_func => execute_async_command async_func now
  | CallAdd update_func => add_update_func update_func
  | CallRemove update_func => remove_update_func update_func
  | Destroy => modify (set_tk_destroyed true)
  | Redraw => ret tt
  end.

(** [self.dooneevent(_tkinter.DONT_WAIT)]: handle one waiting event and
    return 1, or return 0 when none waits.  Tk reports an exception of a
    callback and goes on. *)
Definition dooneevent (now : nat) : Py nat :=
  fun self =>
    match tk_events self with
    | [] => (Value 0, self)
    | e :: rest => (Value 1, exec (callback e now) (set_tk_events rest self))
    end.

(** [self.winfo_exists()] throws TclError once the main window is
    destroyed. *)
Definition winfo_exists : Py nat :=
  fun self => if tk_destroyed self then raise TclError self else ret 1 self.

(** ** The three loops

    A loop is observed for as long as its script lasts: the script of a
    loop lists, for each of its suspensions, what the rest of the program
    did in the meantime. *)

(** How the observation of a loop ends. *)
Inductive ending : Type :=
| StillRunning                   (* the loop goes on after the observation *)
| Returned (t : nat)             (* left by [break]: the coroutine returns *)
| Raised (t : nat) (e : exn)     (* an exception left the loop *)
| Suspended.                     (* awaiting something that never completes *)

(** Callbacks run (by the event pump) while another loop is suspended,
    each with the clock's reading. *)
Definition meanwhile : Type := list (nat * event).

Definition happen (during : meanwhile) (self : AsyncCTK) : AsyncCTK :=
  fold_left (fun s te => exec (callback (snd te) (fst te)) s) during self.

(** Awaiting at [now] a future that completes as [c]: a future that is
    already done is not waited for. *)
Definition await_at (now : nat) (c : completion) : completion :=
  match c with
  | Some (t, r) => Some (Nat.max now t, r)
  | None => None
  end.

(** *** _gui_mainloop *)

Lemma tk_events_callback e now self :
  tk_events (exec (callback e now) self) = tk_events self.
Proof.
  destruct e; cbn; try reflexivity.
  unfold exec, remove_update_func.
  destruct (list_remove update_func (_update_funcs self)); reflexivity.
Qed.

(** [while self.dooneevent(_tkinter.DONT_WAIT) > 0: pass] *)
Equations? drain (now : nat) (self : AsyncCTK) : outcome unit * AsyncCTK
  by wf (length (tk_events self)) lt :=
drain now self with inspect (dooneevent now self) := {
  | exist _ (Value n, self') _ with inspect (0 <? n) := {
      | exist _ true _ := drain now self';
      | exist _ false _ := (Value tt, self') };
  | exist _ (Raise e, self') _ := (Raise e, self') }.
Proof.
  unfold dooneevent in *.
  destruct (tk_events self) as [|ev rest] eqn:Hq.
  - match goal with H : (_, _) = (_, _) |- _ => inversion H; subst end.
    discriminate.
  - match goal with H : (_, _) = (_, _) |- _ => inversion H; subst end.
    rewrite tk_events_callback. cbn. lia.
Qed.

(** How one pass of the pump's loop body ends. *)
Inductive pump : Type :=
| PumpBreak                 (* except TclError: break *)
| PumpSleep (ms : nat).     (* await asyncio.sleep(0.01) *)

Definition is_TclError (e : exn) : bool :=
  match e with
  | TclError => true
  | _ => false
  end.

Definition _gui_iteration (now : nat) : Py pump :=
  _ <- drain now ;;
  alive <- try_except winfo_exists is_TclError ;;
  match alive with
  | None => ret PumpBreak
  | Some _ => ret (PumpSleep 10)
  end.

(** The pump observed over [arrivals]: the events that reach Tk's queue
    during each of its sleeps. *)
Fixpoint _gui_mainloop (arrivals : list (list event)) (now : nat) (self : AsyncCTK)
  : ending * AsyncCTK :=
  match arrivals with
  | [] => (StillRunning, self)
  | arriving :: later =>
      match _gui_iteration now self with
      | (Value PumpBreak, self') => (Returned now, self')
      | (Value (PumpSleep ms), self') =>
          _gui_mainloop later (now + ms)
            (set_tk_events (tk_events self' ++ arriving) self')
      | (Raise e, self') => (Raised now e, self')
      end
  end.

(** *** _update_func_mainloop *)

(** The line the loop prints in its [except asyncio.TimeoutError] clause;
    it quotes [self._update_interval]. *)
Inductive message : Type :=
| UpdateFuncExceeded (interval : nat).

(** What one pass of the loop body did. *)
Record cycle : Type := Cycle {
  cycle_start : nat;
  cycle_funcs : list callable;    (* the update functions called *)
  cycle_tasks : list fate;        (* what became of their coroutines *)
  cycle_floor : list fate;        (* what became of the sleep beside them *)
  cycle_awaited : completion;     (* when and how the awaited gather ends *)
  cycle_printed : list message
}.

(** [update_func()] for an update function: its coroutine. *)
Definition call (update_func : callable) : awaitable :=
  Coro (fn_body update_func).

(** Lines 131-140: the list comprehension, the two nested gathers and
    the [except] clause, started at [now]. *)
Definition _update_func_cycle (now : nat) (self : AsyncCTK) : cycle :=
  let coroutines := map call (_update_funcs self) in
  let interval := _update_interval self in
  let guarded := WaitFor (Gather coroutines) interval in
  let floor := Sleep interval in
  let awaited := resolve (Gather [guarded; floor]) now in
  {| cycle_start := now;
     cycle_funcs := _update_funcs self;
     cycle_tasks := fates guarded now None;
     cycle_floor := fates floor now None;
     cycle_awaited := awaited;
     cycle_printed :=
       match awaited with
       | Some (_, Err TimeoutError) => [UpdateFuncExceeded interval]
       | _ => []
       end |}.

(** How the [try] statement of a cycle ends: a TimeoutError is caught,
    anything else leaves the loop. *)
Definition after_try (c : cycle) : completion :=
  match cycle_awaited c with
  | Some (t, Err TimeoutError) => Some (t, Ok)
  | other => other
  end.

(** The loop observed over [env]: what happened during each cycle's
    await.  The check of [_application_closed] comes after the await and
    so reads the state as it is by then. *)
Fixpoint _update_func_mainloop (env : list meanwhile) (now : nat) (self : AsyncCTK)
  : list cycle * ending :=
  match env with
  | [] => ([], StillRunning)
  | during :: later =>
      let c := _update_func_cycle now self in
      let self' := happen during self in
      match after_try c with
      | Some (t, Ok) =>
          if _application_closed self' then ([c], Returned t)
          else
            let (cs, fin) := _update_func_mainloop later t self' in
            (c :: cs, fin)
      | Some (t, Err e) => ([c], Raised t e)
      | None => ([c], Suspended)
      end
  end.

(** *** _command_mainloop *)

(** One command taken from the queue and awaited. *)
Record dispatch : Type := Dispatch {
  dispatched : command;
  taken_at : nat;
  resumed : completion    (* when and how [await command] ends *)
}.

(** One pass of the loop body up to the final sleep: the command taken,
    if any, and the state left. *)
Definition _command_iteration (now : nat) (self : AsyncCTK)
  : option dispatch * AsyncCTK :=
  match commands_queue self with
  | [] => (None, self)                              (* queue.empty() *)
  | command :: rest =>                              (* queue.get() *)
      (Some {| dispatched := command;
               taken_at := now;
               resumed := await_at now
                            (resolve (command_awaitable command) (created command)) |},
       set_commands_queue rest self)
  end.

Fixpoint _command_mainloop (env : list meanwhile) (now : nat) (self : AsyncCTK)
  : list dispatch * ending :=
  match env with
  | [] => ([], StillRunning)
  | during :: later =>
      match _command_iteration now self with
      | (None, self1) =>
          _command_mainloop later (now + 100) (happen during self1)
      | (Some d, self1) =>
          match resumed d with
          | Some (t, Ok) =>
              let (ds, fin) := _command_mainloop later (t + 100) (happen during self1) in
              (d :: ds, fin)
          | Some (t, Err e) => ([d], Raised t e)
          | None => ([d], Suspended)
          end
      end
  end.

(** The time span over which the handler of a queued command executes:
    from the creation of its task to its completion ([None]: it never
    completes). *)
Definition handler_span (c : command) : nat * option nat :=
  (created c,
   match resolve (call (handler c)) (created c) with
   | Some (t, _) => Some t
   | None => None
   end).

(** *** mainloop *)

(** [asyncio.gather] of the three loop coroutines; [gui], [update] and
    [commands] stand for what [self._gui_mainloop()],
    [self._update_func_mainloop()] and [self._command_mainloop()] do. *)
Definition mainloop (gui update commands : behaviour) : awaitable :=
  Gather [Coro gui; Coro update; Coro commands].

(** ** Executions *)

(** Everything that changes the object after its construction. *)
Inductive step : Type :=
| Invoke (now : nat) (e : event)   (* a public method is called, as by a callback *)
| Arrive (e : event)               (* an event reaches Tk's queue *)
| Pump (now : nat)                 (* one pass of _gui_mainloop *)
| Serve (now : nat).               (* one pass of _command_mainloop *)

Definition perform (s : step) (self : AsyncCTK) : AsyncCTK :=
  match s with
  | Invoke now e => exec (callback e now) self
  | Arrive e => set_tk_events (tk_events self ++ [e]) self
  | Pump now => exec (_gui_iteration now) self
  | Serve now => snd (_command_iteration now self)
  end.

Definition replay (history : list step) (self : AsyncCTK) : AsyncCTK :=
  fold_left (fun s st => perform st s) history self.

(** ** The example program (async_customtkinter_example.py) *)

(** [update_time] sets a label and sleeps 1.1 s. *)
Definition update_time : callable := Callable 1 (Returns 1100).

(** [async_show_popup] sleeps 2 s, then opens a popup. *)
Definition async_show_popup : callable := Callable 2 (Returns 2000).

(** [ExampleGUI()]: the default interval, [update_time] registered. *)
Definition ExampleGUI : AsyncCTK :=
  exec (add_update_func update_time) (__init__ 1000).

(** Further callables for concrete runs: a quick update function, and the
    example GUI with [update_time] registered around it a second time. *)
Definition refresh : callable := Callable 3 (Returns 10).

Definition twice_registered : AsyncCTK :=
  exec (add_update_func update_time) (exec (add_update_func refresh) ExampleGUI).

(** ** The update cycle, looked at more closely

    [_update_func_cycle] reads line 131 as the creation of one coroutine
    per registered function and nothing else, and lets the code of a
    coroutine take no time: all its time is spent suspended.  Both hold
    for update functions written as the example's [update_time] is, an
    [async def] that sets a label and awaits.  The two refinements below
    drop one of the two each; they rest on the same awaitables. *)

(** Lines 131-140 once the list comprehension has [called] the update
    functions: the two nested gathers and the [except] clause. *)
Definition cycle_of (interval now : nat) (called : list callable) : cycle :=
  let coroutines := map call called in
  let guarded := WaitFor (Gather coroutines) interval in
  let floor := Sleep interval in
  let awaited := resolve (Gather [guarded; floor]) now in
  {| cycle_start := now;
     cycle_funcs := called;
     cycle_tasks := fates guarded now None;
     cycle_floor := fates floor now None;
     cycle_awaited := awaited;
     cycle_printed :=
       match awaited with
       | Some (_, Err TimeoutError) => [UpdateFuncExceeded interval]
       | _ => []
       end |}.

(** *** Calls that run code

    Calling an [async def] function runs none of its code.  An update
    function may also be a plain function that returns a coroutine
    (the annotation of [add_update_func] asks for no more): its body runs
    when line 131 calls it, and it can call [add_update_func] and
    [remove_update_func] then.  [on_call f] is what the call of [f]
    makes of the registry.  The comprehension of line 131 iterates over
    [self._update_funcs] itself, not over a copy; Python's list iterator
    keeps an index and looks up the list as it is at each step, until the
    index is past the end.  A function that registers one more function
    on every call keeps the iteration going for ever: [fuel] bounds the
    number of calls, and [None] is given when it does not suffice. *)
Fixpoint comprehension (on_call : callable -> list callable -> list callable)
    (fuel i : nat) (self : AsyncCTK) : option (list callable * AsyncCTK) :=
  match fuel with
  | 0 => None
  | S fuel' =>
      match nth_error (_update_funcs self) i with
      | None => Some ([], self)
      | Some update_func =>
          let self1 := set_update_funcs (on_call update_func (_update_funcs self)) self in
          match comprehension on_call fuel' (S i) self1 with
          | Some (called, self2) => Some (update_func :: called, self2)
          | None => None
          end
      end
  end.

(** The update loop with such calls; [during] is what happens while the
    cycle's gather is awaited, after the calls of line 131. *)
Fixpoint _update_func_mainloop_live
    (on_call : callable -> list callable -> list callable) (fuel : nat)
    (env : list meanwhile) (now : nat) (self : AsyncCTK)
  : option (list cycle * ending) :=
  match env with
  | [] => Some ([], StillRunning)
  | during :: later =>
      match comprehension on_call fuel 0 self with
      | None => None
      | Some (called, self1) =>
          let c := cycle_of (_update_interval self1) now called in
          let self' := happen during self1 in
          match after_try c with
          | Some (t, Ok) =>
              if _application_closed self' then Some ([c], Returned t)
              else
                match _update_func_mainloop_live on_call fuel later t self' with
                | Some (cs, fin) => Some (c :: cs, fin)
                | None => None
                end
          | Some (t, Err e) => Some ([c], Raised t e)
          | None => Some ([c], Suspended)
          end
      end
  end.

(** A plain function that registers [refresh] whenever it is called and
    returns a coroutine that sleeps 10 ms. *)
Definition registrar : callable := Callable 11 (Returns 10).

Definition registrar_on_call (f : callable) (registry : list callable)
  : list callable :=
  if fn_id f =? 11 then registry ++ [refresh] else registry.

(** *** Code that takes time

    [busy f] is the time, in ms, that the coroutine of [f] spends running
    code before it first suspends (or before it ends, when it never
    suspends); [fn_body f] is what it does from then on.  While a
    coroutine runs code nothing else runs.

    The inner [asyncio.gather] of line 134 makes tasks of the update
    coroutines when it is called, that is before the coroutines of
    [asyncio.wait_for] and [asyncio.sleep] become tasks in the outer
    gather, and the event loop gives each task its first turn in that
    order.  So when the loop body suspends at [now], the first stretches
    of the update coroutines run one after the other, and only then does
    [wait_for] start its timeout and [sleep] its delay: at [armed]. *)
Definition armed (busy : callable -> nat) (now : nat) (called : list callable) : nat :=
  now + list_sum (map busy called).

(** What is left at [armed_at] of a coroutine that has suspended at
    [ready]: a coroutine that is through before then is seen to be so
    at [armed_at]. *)
Definition rest_of (armed_at ready : nat) (b : behaviour) : behaviour :=
  match b with
  | Returns d => Returns (ready + d - armed_at)
  | Raises d e => Raises (ready + d - armed_at) e
  | Hangs => Hangs
  end.

(** The update coroutines as [wait_for] finds them at [armed_at], the
    first of them having had its turn from [from] on. *)
Fixpoint at_arming (busy : callable -> nat) (armed_at from : nat)
    (called : list callable) : list callable :=
  match called with
  | [] => []
  | f :: others =>
      let ready := from + busy f in
      Callable (fn_id f) (rest_of armed_at ready (fn_body f))
        :: at_arming busy armed_at ready others
  end.

(** The update coroutines of a cycle started at [now], as its
    [wait_for] finds them. *)
Definition pending (busy : callable -> nat) (now : nat) (called : list callable)
  : list callable :=
  at_arming busy (armed busy now called) now called.

(** Lines 131-140 with that clock: the cycle starts at [now], its
    timers at [armed]. *)
Definition _update_func_cycle_busy (busy : callable -> nat) (now : nat)
    (self : AsyncCTK) : cycle :=
  let called := _update_funcs self in
  let armed_at := armed busy now called in
  let c := cycle_of (_update_interval self) armed_at (pending busy now called) in
  {| cycle_start := now;
     cycle_funcs := called;
     cycle_tasks := cycle_tasks c;
     cycle_floor := cycle_floor c;
     cycle_awaited := cycle_awaited c;
     cycle_printed := cycle_printed c |}.

Fixpoint _update_func_mainloop_busy (busy : callable -> nat) (env : list meanwhile)
    (now : nat) (self : AsyncCTK) : list cycle * ending :=
  match env with
  | [] => ([], StillRunning)
  | during :: later =>
      let c := _update_func_cycle_busy busy now self in
      let self' := happen during self in
      match after_try c with
      | Some (t, Ok) =>
          if _application_closed self' then ([c], Returned t)
          else
            let (cs, fin) := _update_func_mainloop_busy busy later t self' in
            (c :: cs, fin)
      | Some (t, Err e) => ([c], Raised t e)
      | None => ([c], Suspended)
      end
  end.

(** An update function that waits 1.1 s in [time.sleep] and never
    awaits, and the time its code takes. *)
Definition blocking : callable := Callable 10 (Returns 0).

Definition blocking_busy (f : callable) : nat :=
  if fn_id f =? 10 then 1100 else 0.

(** The time the code of the example's [update_time] takes before its
    [asyncio.sleep]: say 5 ms for setting the label. *)
Definition label_busy (f : callable) : nat :=
  if fn_id f =? 1 then 5 else 0.

(** ** Vocabulary of the properties *)

(** The fields no method assigns after construction. *)
Definition constants (self : AsyncCTK) : nat * bool * bool :=
  (_update_interval self, _application_closed self, _window_exists self).

(** An update function whose coroutine returns within the interval. *)
Definition returns_within (interval : nat) (f : callable) : bool :=
  match fn_body f with
  | Returns d => d <=? interval
  | _ => false
  end.

(** An update function whose coroutine raises within the interval. *)
Definition raises_within (interval : nat) (f : callable) : bool :=
  match fn_body f with
  | Raises d _ => d <=? interval
  | _ => false
  end.

(** What the deadline leaves of a coroutine started at [now]: done if it
    returned in time, cancelled otherwise. *)
Definition at_deadline (interval now : nat) (f : callable) : fate :=
  match fn_body f with
  | Returns d => if d <=? interval then Done (now + d) Ok else Cancelled (now + interval)
  | _ => Cancelled (now + interval)
  end.

(** The completions of the coroutines of a snapshot. *)
Definition started (now : nat) (funcs : list callable) : list completion :=
  map (fun x => resolve x now) (map call funcs).

(** The awaitable of one cycle over a snapshot [funcs]. *)
Definition guarded (interval : nat) (funcs : list callable) : awaitable :=
  WaitFor (Gather (map call funcs)) interval.

Definition awaited (interval : nat) (funcs : list callable) : awaitable :=
  Gather [guarded interval funcs; Sleep interval].

(** A fate that the coroutine of an update function can have: one that
    returned was a coroutine that returns, one that raised [e] a
    coroutine that raises [e], one left running a coroutine that never
    finishes; any coroutine can be cancelled. *)
Definition fate_fits (b : behaviour) (x : fate) : Prop :=
  match x with
  | Done _ Ok => exists d, b = Returns d
  | Done _ (Err e) => exists d, b = Raises d e
  | Cancelled _ => True
  | Running => b = Hangs
  end.

(** The state the update loop finds at the start of its [n]-th cycle:
    the initial one after everything that happened during the cycles
    before. *)
Definition at_cycle (n : nat) (env : list meanwhile) (self : AsyncCTK) : AsyncCTK :=
  happen (concat (firstn n env)) self.

(** The futures that the wrappers called during [during] put on the
    commands queue, in the order of the calls. *)
Definition clicked (during : meanwhile) : list command :=
  flat_map (fun te =>
              match snd te with
              | Click async_func => [{| created := fst te; handler := async_func |}]
              | _ => []
              end) during.

(** * Properties *)

(** ** The update registry *)

Section Registry.

Variable update_func : callable.

Lemma list_remove_first l l' :
  list_remove update_func l = Some l' ->
  exists before after,
    l = before ++ update_func :: after /\
    ~ In update_func before /\
    l' = before ++ after.
Proof.
  revert l'. induction l as [|y rest IH]; intros l' H; cbn in H.
  - discriminate.
  - destruct (callable_eq_dec y update_func) as [->|Hne].
    + inversion H; subst. exists [], l'. cbn. auto.
    + destruct (list_remove update_func rest) as [rest'|] eqn:Hr; [|discriminate].
      inversion H; subst.
      destruct (IH rest' eq_refl) as (before & after & -> & Hnin & ->).
      exists (y :: before), after. cbn. repeat split; auto.
      intros [Heq|Hin]; [exact (Hne Heq) | exact (Hnin Hin)].
Qed.

Lemma list_remove_found l :
  In update_func l -> exists l', list_remove update_func l = Some l'.
Proof.
  induction l as [|y rest IH]; intros Hin; cbn.
  - destruct Hin.
  - destruct (callable_eq_dec y update_func) as [->|Hne]; [eauto|].
    destruct Hin as [Heq|Hin]; [contradiction|].
    destruct (IH Hin) as (rest' & ->). eauto.
Qed.

Lemma list_remove_absent l :
  ~ In update_func l -> list_remove update_func l = None.
Proof.
  induction l as [|y rest IH]; intros Hnin; cbn; [reflexivity|].
  destruct (callable_eq_dec y update_func) as [->|Hne].
  - exfalso. apply Hnin. now left.
  - rewrite IH; [reflexivity|]. intros Hin. apply Hnin. now right.
Qed.

End Registry.

(** C7. [add_update_func] never refuses and puts the function at the end
    of the registry, behind the entries already there, whether or not the
    function is registered already.  When the function is registered,
    [remove_update_func] succeeds and drops the first entry equal to it
    (equality of function objects is identity) and nothing else: the
    entries before it and after it stay, in their order. *)
Theorem registry_add_remove (self : AsyncCTK) (update_func : callable) :
  (add_update_func update_func self =
     (Value tt, set_update_funcs (_update_funcs self ++ [update_func]) self) /\
   count_occ callable_eq_dec
     (_update_funcs (exec (add_update_func update_func) self)) update_func =
     S (count_occ callable_eq_dec (_update_funcs self) update_func)) /\
  (In update_func (_update_funcs self) ->
   exists before after,
     _update_funcs self = before ++ update_func :: after /\
     ~ In update_func before /\
     remove_update_func update_func self =
       (Value tt, set_update_funcs (before ++ after) self)).
Proof.
  split.
  - split; [reflexivity|].
    cbn. rewrite count_occ_app. cbn.
    destruct (callable_eq_dec update_func update_func); [lia | contradiction].
  - intros Hin.
    destruct (list_remove_found update_func _ Hin) as (l' & Hl').
    destruct (list_remove_first _ _ Hl') as (before & after & Hreg & Hnin & ->).
    exists before, after. repeat split; auto.
    unfold remove_update_func. now rewrite Hl'.
Qed.

Lemma registry_add_remove_witness :
  exists before after,
    _update_funcs twice_registered = before ++ update_time :: after /\
    ~ In update_time before /\
    remove_update_func update_time twice_registered =
      (Value tt, set_update_funcs (before ++ after) twice_registered).
Proof.
  apply (proj2 (registry_add_remove twice_registered update_time)).
  cbn. auto.
Defined.

(** C10. Removing a function that is not in the registry raises
    ValueError and leaves the object as it was. *)
Theorem remove_unregistered_raises (self : AsyncCTK) (update_func : callable) :
  ~ In update_func (_update_funcs self) ->
  remove_update_func update_func self = (Raise ValueError, self).
Proof.
  intros Hnin. unfold remove_update_func.
  now rewrite (list_remove_absent _ _ Hnin).
Qed.

Lemma remove_unregistered_raises_witness :
  remove_update_func async_show_popup twice_registered =
    (Raise ValueError, twice_registered).
Proof.
  apply (remove_unregistered_raises twice_registered async_show_popup).
  cbn. intros [H|[H|[H|[]]]]; discriminate H.
Defined.

(** ** What the methods leave untouched *)

Lemma callback_constants e now self :
  constants (exec (callback e now) self) = constants self.
Proof.
  destruct e; cbn; try reflexivity.
  unfold exec, remove_update_func.
  destruct (list_remove update_func (_update_funcs self)); reflexivity.
Qed.

Lemma callback_set_tk_events e now q self :
  exec (callback e now) (set_tk_events q self) =
  set_tk_events q (exec (callback e now) self).
Proof.
  destruct e; cbn; try reflexivity.
  unfold exec, remove_update_func. cbn.
  destruct (list_remove update_func (_update_funcs self)); reflexivity.
Qed.

Lemma happen_constants during self :
  constants (happen during self) = constants self.
Proof.
  revert self. induction during as [|[t e] rest IH]; intros self; cbn.
  - reflexivity.
  - unfold happen in IH. rewrite IH. apply callback_constants.
Qed.

Lemma happen_app a b self :
  happen (a ++ b) self = happen b (happen a self).
Proof. unfold happen. apply fold_left_app. Qed.

Lemma set_tk_events_same self :
  set_tk_events (tk_events self) self = self.
Proof. destruct self; reflexivity. Qed.

(** One turn of the pump's [while] loop. *)
Lemma drain_step now self :
  drain now self =
  match dooneevent now self with
  | (Value n, self') => if 0 <? n then drain now self' else (Value tt, self')
  | (Raise e, self') => (Raise e, self')
  end.
Proof.
  funelim (drain now self);
    repeat match goal with
           | H : dooneevent _ _ = _ |- _ => rewrite H
           | H : (0 <? _) = _ |- _ => rewrite H
           end; reflexivity.
Qed.

(** The [while] loop of the pump runs the callback of every event that
    waits in the queue, first come first served, and leaves the queue
    empty. *)
Lemma drain_all now self :
  drain now self =
  (Value tt,
   happen (map (pair now) (tk_events self)) (set_tk_events [] self)).
Proof.
  remember (tk_events self) as evs eqn:Hevs.
  revert self Hevs. induction evs as [|e rest IH]; intros self Hevs;
    rewrite drain_step; unfold dooneevent; rewrite <- Hevs; cbn.
  - rewrite Hevs. now rewrite set_tk_events_same.
  - rewrite IH by (now rewrite tk_events_callback).
    unfold happen. cbn [map fold_left fst snd].
    rewrite !callback_set_tk_events. reflexivity.
Qed.

Lemma happen_tk_events during self :
  tk_events (happen during self) = tk_events self.
Proof.
  revert self. induction during as [|[t e] rest IH]; intros self; cbn.
  - reflexivity.
  - unfold happen in IH. rewrite IH. apply tk_events_callback.
Qed.

(** C8. One pass of the pump's loop body handles every event that waits
    in Tk's queue, in order, by calling [dooneevent] until it returns 0;
    after it no event waits.  It then asks [winfo_exists]: if the window
    is destroyed by then, the loop is left by [break] and the coroutine
    returns (no exception); otherwise the pass ends in a sleep of 10 ms
    and the next pass follows it. *)
Theorem gui_iteration_drains_then_checks (now : nat) (self : AsyncCTK) :
  let drained :=
    happen (map (pair now) (tk_events self)) (set_tk_events [] self) in
  _gui_iteration now self =
    (Value (if tk_destroyed drained then PumpBreak else PumpSleep 10), drained) /\
  tk_events drained = [] /\
  dooneevent now drained = (Value 0, drained) /\
  forall arriving later,
    _gui_mainloop (arriving :: later) now self =
    if tk_destroyed drained then (Returned now, drained)
    else _gui_mainloop later (now + 10) (set_tk_events arriving drained).
Proof.
  intros drained.
  assert (Hq : tk_events drained = []).
  { unfold drained. now rewrite happen_tk_events. }
  assert (Hit : _gui_iteration now self =
                (Value (if tk_destroyed drained then PumpBreak else PumpSleep 10),
                 drained)).
  { unfold _gui_iteration, bind. rewrite drain_all. fold drained.
    unfold try_except, winfo_exists, raise, ret.
    destruct (tk_destroyed drained); reflexivity. }
  repeat split.
  - exact Hit.
  - exact Hq.
  - unfold dooneevent. now rewrite Hq.
  - intros arriving later. cbn [_gui_mainloop]. rewrite Hit.
    destruct (tk_destroyed drained); [reflexivity|].
    now rewrite Hq.
Qed.

(** ** The termination flag *)

Lemma gui_iteration_constants now self :
  constants (exec (_gui_iteration now) self) = constants self.
Proof.
  unfold exec, _gui_iteration, bind. rewrite drain_all.
  unfold try_except, winfo_exists, raise, ret.
  destruct (tk_destroyed _); cbn [snd is_TclError]; now rewrite happen_constants.
Qed.

Lemma command_iteration_constants now self :
  constants (snd (_command_iteration now self)) = constants self.
Proof.
  unfold _command_iteration. destruct (commands_queue self); reflexivity.
Qed.

Lemma perform_constants s self :
  constants (perform s self) = constants self.
Proof.
  destruct s; cbn [perform].
  - apply callback_constants.
  - reflexivity.
  - apply gui_iteration_constants.
  - apply command_iteration_constants.
Qed.

Lemma replay_constants history self :
  constants (replay history self) = constants self.
Proof.
  revert self. induction history as [|s rest IH]; intros self; cbn.
  - reflexivity.
  - unfold replay in IH. rewrite IH. apply perform_constants.
Qed.

Lemma closed_of_constants a b :
  constants a = constants b -> _application_closed a = _application_closed b.
Proof. unfold constants. congruence. Qed.

Lemma interval_of_constants a b :
  constants a = constants b -> _update_interval a = _update_interval b.
Proof. unfold constants. congruence. Qed.

(** With the flag down, the update loop is never left by its [break]. *)
Lemma update_mainloop_no_break env :
  forall now self t,
    _application_closed self = false ->
    snd (_update_func_mainloop env now self) <> Returned t.
Proof.
  induction env as [|during later IH]; intros now self t Hflag; cbn.
  - discriminate.
  - destruct (after_try (_update_func_cycle now self)) as [[t' [|e]]|];
      cbn; try discriminate.
    assert (Hflag' : _application_closed (happen during self) = false).
    { rewrite <- Hflag. apply closed_of_constants, happen_constants. }
    rewrite Hflag'.
    specialize (IH t' (happen during self) t Hflag').
    destruct (_update_func_mainloop later t' (happen during self)); exact IH.
Qed.

(** C5. [_application_closed] is set to False by the constructor, and
    nothing that happens afterwards assigns it: not a public method, not
    the arrival of an event, not a pass of the event pump or of the
    command dispatcher (the update loop assigns nothing at all).  So
    after any history the flag is still False, and the update loop,
    however long it is observed from there and whatever happens during
    its cycles, is never left through its [if self._application_closed:
    break]. *)
Theorem application_closed_never_set (update_interval : nat) (history : list step) :
  _application_closed (__init__ update_interval) = false /\
  (forall s self, _application_closed (perform s self) = _application_closed self) /\
  _application_closed (replay history (__init__ update_interval)) = false /\
  forall env now t,
    snd (_update_func_mainloop env now (replay history (__init__ update_interval)))
    <> Returned t.
Proof.
  assert (H : _application_closed (replay history (__init__ update_interval)) = false).
  { now rewrite (closed_of_constants (replay_constants history _)). }
  repeat split.
  - intros s self. apply closed_of_constants, perform_constants.
  - exact H.
  - intros env now t. now apply update_mainloop_no_break.
Qed.

(** ** The command dispatcher *)

(** C9. When the dispatcher takes a command whose handler raises, [await
    command] raises that exception again and nothing in the loop catches
    it: the loop ends with the exception (a TimeoutError like any other),
    at the time the handler raised or at the time of the await if that is
    later, and takes no further command. *)
Theorem command_error_propagates
    (during : meanwhile) (later : list meanwhile) (now : nat) (self : AsyncCTK)
    (cmd : command) (rest : list command) (d : nat) (e : exn) :
  commands_queue self = cmd :: rest ->
  fn_body (handler cmd) = Raises d e ->
  _command_mainloop (during :: later) now self =
  ([{| dispatched := cmd;
       taken_at := now;
       resumed := Some (Nat.max now (created cmd + d), Err e) |}],
   Raised (Nat.max now (created cmd + d)) e).
Proof.
  intros Hq Hbody.
  cbn [_command_mainloop]. unfold _command_iteration. rewrite Hq.
  unfold command_awaitable. cbn. rewrite Hbody. cbn. reflexivity.
Qed.

Lemma command_error_propagates_witness :
  _command_mainloop [[]; []] 50
    (exec (execute_async_command async_show_popup 40)
       (exec (execute_async_command (Callable 7 (Raises 30 (UserError 1))) 0)
          (__init__ 1000))) =
  ([{| dispatched := {| created := 0;
                        handler := Callable 7 (Raises 30 (UserError 1)) |};
       taken_at := 50;
       resumed := Some (50, Err (UserError 1)) |}],
   Raised 50 (UserError 1)).
Proof.
  apply (@command_error_propagates [] [[]] 50 _
           {| created := 0; handler := Callable 7 (Raises 30 (UserError 1)) |}
           [{| created := 40; handler := async_show_popup |}] 30 (UserError 1));
    reflexivity.
Defined.

(** A handler starts when its wrapper is called: the wrapper appends a
    future whose task runs from the time of the call, whatever the queue
    holds. *)
Lemma wrapper_starts_handler (async_func : callable) (now : nat) (self : AsyncCTK) :
  commands_queue (exec (execute_async_command async_func now) self) =
    commands_queue self ++ [{| created := now; handler := async_func |}] /\
  fst (handler_span {| created := now; handler := async_func |}) = now.
Proof. split; reflexivity. Qed.

(** C1 (the code does not do this).  Three buttons, each bound through
    [execute_async_command], are clicked, and the pump handles the three
    clicks in one pass at time 0.  Each wrapper calls [asyncio.gather],
    which starts the handler as a task then and there, so all three
    handlers start at time 0 and run side by side: the second starts 2000
    ms before the first completes, and the third is the first to finish.
    The dispatcher takes the commands in the order of the clicks and
    awaits them one after the other, but that only collects handlers
    which run on their own. *)
Theorem wrapped_handlers_overlap :
  let clicked :=
    exec (_gui_iteration 0)
          (replay [Arrive (Click async_show_popup);
                    Arrive (Click (Callable 4 (Returns 500)));
                    Arrive (Click (Callable 5 (Returns 100)))]
             (__init__ 1000)) in
  map handler (commands_queue clicked) =
    [async_show_popup; Callable 4 (Returns 500); Callable 5 (Returns 100)] /\
  map handler_span (commands_queue clicked) =
    [(0, Some 2000); (0, Some 500); (0, Some 100)] /\
  map (fun d => (handler (dispatched d), taken_at d, resumed d))
      (fst (_command_mainloop [[]; []; []; []] 0 clicked)) =
    [(async_show_popup, 0, Some (2000, Ok));
     (Callable 4 (Returns 500), 2100, Some (2100, Ok));
     (Callable 5 (Returns 100), 2200, Some (2200, Ok))].
Proof. repeat split; reflexivity. Qed.

(** ** Gathers *)

Section Gather.

Lemma first_error_in cs t e :
  first_error cs = Some (t, e) -> In (Some (t, Err e)) cs.
Proof.
  revert t e. induction cs as [|c rest IH]; intros t e H; cbn in H.
  - discriminate.
  - destruct c as [[tc [|ec]]|]; try (right; now apply IH).
    destruct (first_error rest) as [[t' e']|].
    + destruct (tc <=? t'); inversion H; subst.
      * now left.
      * right. now apply IH.
    + inversion H; subst. now left.
Qed.

Lemma first_error_least cs t e :
  first_error cs = Some (t, e) ->
  forall t' e', In (Some (t', Err e')) cs -> t <= t'.
Proof.
  revert t e. induction cs as [|c rest IH]; intros t e H t' e' Hin; cbn in H.
  - destruct Hin.
  - destruct c as [[tc [|ec]]|].
    + destruct Hin as [Heq|Hin]; [discriminate|]. eapply IH; eauto.
    + destruct (first_error rest) as [[t1 e1]|] eqn:Hrest.
      * specialize (IH t1 e1 eq_refl).
        destruct (Nat.leb_spec tc t1); inversion H; subst;
          destruct Hin as [Heq|Hin]; try (inversion Heq; subst);
          try lia; specialize (IH _ _ Hin); lia.
      * inversion H; subst.
        destruct Hin as [Heq|Hin]; [inversion Heq; lia|].
        exfalso. clear - Hrest Hin.
        induction rest as [|c rest IHr]; [destruct Hin|].
        cbn in Hrest. destruct Hin as [->|Hin].
        -- destruct (first_error rest) as [[? ?]|];
             [destruct (t' <=? n)|]; discriminate.
        -- destruct c as [[tc [|ec]]|]; try now apply IHr.
           destruct (first_error rest) as [[? ?]|];
             [destruct (tc <=? n)|]; discriminate.
    + destruct Hin as [Heq|Hin]; [discriminate|]. eapply IH; eauto.
Qed.

Lemma first_error_none cs :
  first_error cs = None <-> (forall t e, ~ In (Some (t, Err e)) cs).
Proof.
  split.
  - induction cs as [|c rest IH]; intros H t e Hin; cbn in H.
    + destruct Hin.
    + destruct c as [[tc [|ec]]|].
      * destruct Hin as [Heq|Hin]; [discriminate|]. eapply IH; eauto.
      * destruct (first_error rest) as [[? ?]|];
          [destruct (tc <=? n)|]; discriminate.
      * destruct Hin as [Heq|Hin]; [discriminate|]. eapply IH; eauto.
  - intros H. destruct (first_error cs) as [[t e]|] eqn:Hfe; [|reflexivity].
    exfalso. eapply H. eapply first_error_in; eauto.
Qed.

(** A gather completes without error exactly when none of its parts
    fails and all of them complete; it then completes with the last. *)
Lemma gather_completion_ok s cs t :
  gather_completion s cs = Some (t, Ok) <->
  first_error cs = None /\ all_done s cs = Some t.
Proof.
  unfold gather_completion.
  destruct (first_error cs) as [[t' e']|].
  - split; [discriminate | intros [H _]; discriminate].
  - destruct (all_done s cs) as [m|]; split; intros H.
    + inversion H; subst. auto.
    + destruct H as [_ H]. inversion H; subst. reflexivity.
    + discriminate.
    + destruct H as [_ H]. discriminate.
Qed.

(** A gather fails exactly when one of its parts fails, with the first
    failure and at the time of that failure. *)
Lemma gather_completion_err s cs t e :
  gather_completion s cs = Some (t, Err e) <-> first_error cs = Some (t, e).
Proof.
  unfold gather_completion.
  destruct (first_error cs) as [[t' e']|].
  - split; intros H; inversion H; subst; reflexivity.
  - destruct (all_done s cs); split; discriminate.
Qed.

End Gather.

(** ** mainloop *)

Lemma run_not_before b now t r : run b now = Some (t, r) -> now <= t.
Proof. destruct b; cbn; intros H; inversion H; lia. Qed.

(** C4 (as amended).  [mainloop] starts the three loops together, at the
    time it is awaited, and never cancels any of them.  It completes
    without error only when all three have completed, at the time the
    last one does.  If a loop raises, [mainloop] completes with an error
    no later than that, namely with the first exception raised and at the
    time it is raised, whatever the other loops are doing: they are left
    running. *)
Theorem mainloop_gathers_three_loops (gui update commands : behaviour) (now : nat) :
  let loops := [run gui now; run update now; run commands now] in
  fates (mainloop gui update commands) now None =
    map (fun c => settle c None) loops /\
  (forall t, ~ In (Cancelled t) (fates (mainloop gui update commands) now None)) /\
  (forall t,
     resolve (mainloop gui update commands) now = Some (t, Ok) <->
     exists tg tu tc,
       loops = [Some (tg, Ok); Some (tu, Ok); Some (tc, Ok)] /\
       t = Nat.max tg (Nat.max tu tc)) /\
  (forall t e,
     resolve (mainloop gui update commands) now = Some (t, Err e) ->
     In (Some (t, Err e)) loops /\
     forall t' e', In (Some (t', Err e')) loops -> t <= t') /\
  (forall t e,
     In (Some (t, Err e)) loops ->
     exists t' e',
       resolve (mainloop gui update commands) now = Some (t', Err e') /\ t' <= t).
Proof.
  intros loops.
  assert (Hres : resolve (mainloop gui update commands) now =
                 gather_completion now loops) by reflexivity.
  assert (Hfates : fates (mainloop gui update commands) now None =
                   map (fun c => settle c None) loops) by reflexivity.
  split; [exact Hfates|]. split; [|split; [|split]].
  - intros t. rewrite Hfates. unfold loops. cbn.
    intros [H|[H|[H|[]]]];
      [destruct (run gui now) as [[? ?]|]
      |destruct (run update now) as [[? ?]|]
      |destruct (run commands now) as [[? ?]|]]; discriminate.
  - intros t. rewrite Hres, gather_completion_ok. split.
    + intros [Hfe Hdone]. unfold loops in *.
      destruct (run gui now) as [[tg rg]|] eqn:Hg; [|discriminate].
      destruct (run update now) as [[tu ru]|] eqn:Hu; [|discriminate].
      destruct (run commands now) as [[tc rc]|] eqn:Hc; [|discriminate].
      pose proof (proj1 (first_error_none _) Hfe) as Hno.
      destruct rg as [|eg]; [|exfalso; apply (Hno tg eg); cbn; auto].
      destruct ru as [|eu]; [|exfalso; apply (Hno tu eu); cbn; auto].
      destruct rc as [|ec]; [|exfalso; apply (Hno tc ec); cbn; auto].
      exists tg, tu, tc. split; [reflexivity|].
      cbn in Hdone. inversion Hdone.
      apply run_not_before in Hc. lia.
    + intros (tg & tu & tc & Hl & ->). rewrite Hl. cbn. split; [reflexivity|].
      unfold loops in Hl. inversion Hl as [[Hg Hu Hc]].
      apply run_not_before in Hc. f_equal. lia.
  - intros t e. rewrite Hres, gather_completion_err. intros Hfe. split.
    + now apply first_error_in.
    + exact (@first_error_least _ _ _ Hfe).
  - intros t e Hin. rewrite Hres.
    destruct (first_error loops) as [[t' e']|] eqn:Hfe.
    + exists t', e'. split.
      * now apply gather_completion_err.
      * exact (@first_error_least _ _ _ Hfe _ _ Hin).
    + exfalso. eapply (proj1 (first_error_none _) Hfe); eauto.
Qed.

(** C4 (as stated, refuted).  The dispatcher raises at 100 ms while the
    pump and the update loop are running: [mainloop] completes with the
    exception at 100 ms, and the other two loops are not cancelled. *)
Lemma mainloop_error_cancels_no_loop :
  resolve (mainloop Hangs Hangs (Raises 100 (UserError 1))) 0 =
    Some (100, Err (UserError 1)) /\
  fates (mainloop Hangs Hangs (Raises 100 (UserError 1))) 0 None =
    [Running; Running; Done 100 (Err (UserError 1))] /\
  ~ In (Cancelled 100) (fates (mainloop Hangs Hangs (Raises 100 (UserError 1))) 0 None).
Proof.
  repeat split; try reflexivity.
  cbn. intros [H|[H|[H|[]]]]; discriminate H.
Qed.

(** ** The update cycle *)

Section Cycle.

Variables (interval now : nat).

Lemma started_in funcs c :
  In c (started now funcs) <->
  exists f, In f funcs /\ run (fn_body f) now = c.
Proof.
  unfold started. rewrite map_map, in_map_iff.
  split; intros (f & H1 & H2); exists f; auto.
Qed.

Lemma all_done_bounds s cs m :
  all_done s cs = Some m ->
  s <= m /\
  (forall c, In c cs -> exists t r, c = Some (t, r) /\ t <= m).
Proof.
  revert m. induction cs as [|c rest IH]; intros m H; cbn in H.
  - inversion H; subst. split; [lia|]. intros c [].
  - destruct c as [[t r]|]; [|discriminate].
    destruct (all_done s rest) as [m'|]; [|discriminate].
    inversion H; subst. destruct (IH m' eq_refl) as [Hs Hall].
    split; [lia|]. intros c [<-|Hin].
    + exists t, r. split; [reflexivity | lia].
    + destruct (Hall c Hin) as (t' & r' & -> & Hle).
      exists t', r'. split; [reflexivity | lia].
Qed.

Lemma all_done_within s cs bound :
  s <= bound ->
  (forall c, In c cs -> exists t r, c = Some (t, r) /\ t <= bound) ->
  exists m, all_done s cs = Some m /\ m <= bound.
Proof.
  intros Hs. induction cs as [|c rest IH]; intros Hall; cbn.
  - eauto.
  - destruct (Hall c (or_introl eq_refl)) as (t & r & -> & Hle).
    destruct IH as (m & -> & Hm); [intros; apply Hall; now right|].
    exists (Nat.max t m). split; [reflexivity | lia].
Qed.

(** No failure within the interval: a failure of the inner gather, if
    any, comes after the deadline. *)
Lemma inner_error_late funcs t e :
  Forall (fun f => raises_within interval f = false) funcs ->
  first_error (started now funcs) = Some (t, e) ->
  now + interval < t.
Proof.
  intros Hno Hfe. apply first_error_in, started_in in Hfe as (f & Hin & Hrun).
  rewrite Forall_forall in Hno. specialize (Hno f Hin).
  unfold raises_within in Hno. destruct (fn_body f); cbn in Hrun; inversion Hrun; subst.
  apply Nat.leb_gt in Hno. lia.
Qed.

Lemma resolve_gather_calls funcs :
  resolve (Gather (map call funcs)) now = gather_completion now (started now funcs).
Proof. reflexivity. Qed.

(** All coroutines return within the interval: so does their gather. *)
Lemma inner_in_time funcs :
  Forall (fun f => returns_within interval f = true) funcs ->
  exists m,
    resolve (Gather (map call funcs)) now = Some (m, Ok) /\ m <= now + interval.
Proof.
  intros Hall. rewrite Forall_forall in Hall.
  assert (Hc : forall c, In c (started now funcs) ->
                 exists t r, c = Some (t, r) /\ t <= now + interval /\ r = Ok).
  { intros c Hin. apply started_in in Hin as (f & Hin & <-).
    specialize (Hall f Hin). unfold returns_within in Hall.
    destruct (fn_body f); try discriminate.
    apply Nat.leb_le in Hall. cbn. exists (now + d), Ok.
    repeat split; [lia]. }
  assert (Hfe : first_error (started now funcs) = None).
  { apply first_error_none. intros t e Hin.
    destruct (Hc _ Hin) as (t' & r' & Heq & _ & ->). discriminate. }
  destruct (@all_done_within now (started now funcs) (now + interval)) as (m & Hm & Hle).
  - lia.
  - intros c Hin. destruct (Hc c Hin) as (t & r & -> & Hle & _). eauto.
  - exists m. split; [|exact Hle].
    rewrite resolve_gather_calls. unfold gather_completion. now rewrite Hfe, Hm.
Qed.

(** Some coroutine is not back by the deadline and none has failed by
    then: their gather is still pending at the deadline. *)
Lemma inner_overrun funcs :
  Forall (fun f => raises_within interval f = false) funcs ->
  Exists (fun f => returns_within interval f = false) funcs ->
  match resolve (Gather (map call funcs)) now with
  | Some (t, _) => now + interval < t
  | None => True
  end.
Proof.
  intros Hno Hslow. rewrite resolve_gather_calls. unfold gather_completion.
  destruct (first_error (started now funcs)) as [[t e]|] eqn:Hfe.
  - eapply inner_error_late; eauto.
  - destruct (all_done now (started now funcs)) as [m|] eqn:Hdone; [|exact I].
    apply Exists_exists in Hslow as (f & Hin & Hf).
    destruct (all_done_bounds _ _ Hdone) as [_ Hall].
    destruct (Hall (run (fn_body f) now)) as (t & r & Hrun & Hle).
    { apply started_in. eauto. }
    unfold returns_within in Hf.
    destruct (fn_body f) as [d|d e|] eqn:Hbody; cbn in Hrun; inversion Hrun; subst.
    + apply Nat.leb_gt in Hf. lia.
    + exfalso. apply (proj1 (first_error_none _) Hfe (now + d) e).
      apply started_in. exists f. rewrite Hbody. auto.
Qed.

Lemma fates_calls funcs cancel :
  flat_map (fun x => fates x now cancel) (map call funcs) =
  map (fun f => settle (run (fn_body f) now) cancel) funcs.
Proof.
  induction funcs as [|f rest IH]; cbn; [reflexivity|]. now rewrite IH.
Qed.

Lemma settle_at_deadline f :
  raises_within interval f = false ->
  settle (run (fn_body f) now) (Some (now + interval)) = at_deadline interval now f.
Proof.
  unfold raises_within, at_deadline. intros Hno.
  destruct (fn_body f) as [d|d e|]; cbn [settle run]; [| |reflexivity].
  - destruct (Nat.leb_spec d interval), (Nat.ltb_spec (now + interval) (now + d));
      try reflexivity; lia.
  - apply Nat.leb_gt in Hno.
    destruct (Nat.ltb_spec (now + interval) (now + d)); [reflexivity | lia].
Qed.

Lemma resolve_awaited funcs :
  resolve (awaited interval funcs) now =
  gather_completion now [resolve (guarded interval funcs) now; Some (now + interval, Ok)].
Proof. reflexivity. Qed.

Lemma resolve_guarded funcs :
  resolve (guarded interval funcs) now =
  match resolve (Gather (map call funcs)) now with
  | Some (t, r) =>
      if t <=? now + interval then Some (t, r)
      else Some (now + interval, Err TimeoutError)
  | None => Some (now + interval, Err TimeoutError)
  end.
Proof. reflexivity. Qed.

Lemma fates_guarded funcs :
  fates (guarded interval funcs) now None =
  map (fun f => settle (run (fn_body f) now)
                  (still_pending (resolve (Gather (map call funcs)) now)
                     (Some (now + interval))))
      funcs.
Proof. unfold guarded. cbn [fates]. apply fates_calls. Qed.

(** Every coroutine returns in time: the cycle ends with the floor. *)
Lemma awaited_in_time funcs :
  Forall (fun f => returns_within interval f = true) funcs ->
  resolve (awaited interval funcs) now = Some (now + interval, Ok).
Proof.
  intros Hall. destruct (inner_in_time Hall) as (m & Hm & Hle).
  rewrite resolve_awaited, resolve_guarded, Hm.
  apply Nat.leb_le in Hle. rewrite Hle. cbn.
  f_equal. f_equal. apply Nat.leb_le in Hle. lia.
Qed.

(** A coroutine overruns and none fails: the deadline cancels what still
    runs, and the cycle ends at the deadline with a TimeoutError. *)
Lemma awaited_overrun funcs :
  Forall (fun f => raises_within interval f = false) funcs ->
  Exists (fun f => returns_within interval f = false) funcs ->
  resolve (awaited interval funcs) now = Some (now + interval, Err TimeoutError) /\
  fates (guarded interval funcs) now None = map (at_deadline interval now) funcs.
Proof.
  intros Hno Hslow. pose proof (inner_overrun Hno Hslow) as Hin.
  rewrite resolve_awaited, resolve_guarded, fates_guarded.
  assert (Hmap :
            map (fun f => settle (run (fn_body f) now) (Some (now + interval))) funcs =
            map (at_deadline interval now) funcs).
  { apply map_ext_in. intros f Hf. apply settle_at_deadline.
    rewrite Forall_forall in Hno. auto. }
  destruct (resolve (Gather (map call funcs)) now) as [[t r]|]; cbn [still_pending].
  - apply Nat.leb_gt in Hin. rewrite Hin. split; [reflexivity | exact Hmap].
  - split; [reflexivity | exact Hmap].
Qed.

(** No coroutine fails within the interval: the cycle ends exactly at
    the deadline, in one of the two ways above. *)
Lemma awaited_without_failure funcs :
  Forall (fun f => raises_within interval f = false) funcs ->
  resolve (awaited interval funcs) now = Some (now + interval, Ok) \/
  resolve (awaited interval funcs) now = Some (now + interval, Err TimeoutError).
Proof.
  intros Hno.
  destruct (Forall_Exists_dec (fun f => returns_within interval f = true)
              (fun f => bool_dec (returns_within interval f) true) funcs)
    as [Hall|Hslow].
  - left. now apply awaited_in_time.
  - right. apply awaited_overrun; [exact Hno|].
    eapply Exists_impl; [|exact Hslow].
    intros f Hf. now apply not_true_is_false.
Qed.

End Cycle.

(** ** The update loop over time *)

Lemma update_mainloop_cycles during later now self :
  fst (_update_func_mainloop (during :: later) now self) =
  _update_func_cycle now self ::
  match after_try (_update_func_cycle now self) with
  | Some (t, Ok) =>
      if _application_closed (happen during self) then []
      else fst (_update_func_mainloop later t (happen during self))
  | _ => []
  end.
Proof.
  cbn [_update_func_mainloop].
  destruct (after_try (_update_func_cycle now self)) as [[t [|e]]|]; try reflexivity.
  destruct (_application_closed (happen during self)); [reflexivity|].
  destruct (_update_func_mainloop later t (happen during self)); reflexivity.
Qed.

Lemma at_cycle_succ n during later self :
  at_cycle (S n) (during :: later) self = at_cycle n later (happen during self).
Proof. unfold at_cycle. cbn. apply happen_app. Qed.

(** The [n]-th cycle is the loop body run on the state found at its
    start. *)
Lemma nth_cycle env :
  forall n now self c,
    nth_error (fst (_update_func_mainloop env now self)) n = Some c ->
    c = _update_func_cycle (cycle_start c) (at_cycle n env self) /\
    (n = 0 -> cycle_start c = now).
Proof.
  induction env as [|during later IH]; intros n now self c H.
  - destruct n; discriminate.
  - rewrite update_mainloop_cycles in H. destruct n as [|n]; cbn in H.
    + inversion H; subst. split; reflexivity.
    + rewrite at_cycle_succ.
      destruct (after_try (_update_func_cycle now self)) as [[t [|e]]|];
        try (destruct n; discriminate).
      destruct (_application_closed (happen during self));
        [destruct n; discriminate|].
      destruct (IH _ _ _ _ H) as [Hc _]. split; [exact Hc | discriminate].
Qed.

(** The cycle after the [n]-th starts when the [try] statement of the
    [n]-th has ended. *)
Lemma next_cycle env :
  forall n now self c c',
    nth_error (fst (_update_func_mainloop env now self)) n = Some c ->
    nth_error (fst (_update_func_mainloop env now self)) (S n) = Some c' ->
    after_try c = Some (cycle_start c', Ok).
Proof.
  induction env as [|during later IH]; intros n now self c c' H H'.
  - destruct n; discriminate.
  - rewrite update_mainloop_cycles in H, H'. destruct n as [|n]; cbn in H, H'.
    + inversion H; subst.
      destruct (after_try (_update_func_cycle now self)) as [[t [|e]]|];
        try discriminate.
      destruct (_application_closed (happen during self)); [discriminate|].
      destruct (@nth_cycle later 0 _ _ _ H') as [_ Hs]. now rewrite Hs.
    + destruct (after_try (_update_func_cycle now self)) as [[t [|e]]|];
        try (destruct n; discriminate).
      destruct (_application_closed (happen during self));
        [destruct n; discriminate|].
      eapply IH; eauto.
Qed.

Lemma at_cycle_interval n env self :
  _update_interval (at_cycle n env self) = _update_interval self.
Proof. apply interval_of_constants, happen_constants. Qed.

(** ** The calls of line 131 *)

Lemma skipn_nth_error {A} (l : list A) i x :
  nth_error l i = Some x -> skipn i l = x :: skipn (S i) l.
Proof.
  revert i. induction l as [|y l IH]; intros i H.
  - destruct i; discriminate.
  - destruct i as [|i]; cbn in H.
    + inversion H. reflexivity.
    + cbn [skipn]. now apply IH.
Qed.

(** Update functions whose call runs no code: the comprehension calls
    the registry from index [i] on and leaves the object as it is. *)
Lemma comprehension_async on_call self fuel :
  forall i,
    Forall (fun f => forall l, on_call f l = l) (_update_funcs self) ->
    length (_update_funcs self) - i < fuel ->
    comprehension on_call fuel i self = Some (skipn i (_update_funcs self), self).
Proof.
  induction fuel as [|fuel IH]; intros i Hpure Hfuel; [lia|].
  cbn [comprehension].
  destruct (nth_error (_update_funcs self) i) as [f|] eqn:Hi.
  - assert (Hf : forall l, on_call f l = l).
    { rewrite Forall_forall in Hpure. apply Hpure. eapply nth_error_In; eauto. }
    assert (Hlt : i < length (_update_funcs self)).
    { apply nth_error_Some. congruence. }
    rewrite Hf.
    replace (set_update_funcs (_update_funcs self) self) with self
      by (destruct self; reflexivity).
    rewrite IH; [|exact Hpure|lia].
    now rewrite (skipn_nth_error _ _ Hi).
  - apply nth_error_None in Hi. now rewrite skipn_all2.
Qed.

Lemma update_mainloop_live_step on_call fuel during later now self :
  Forall (fun f => forall l, on_call f l = l) (_update_funcs self) ->
  length (_update_funcs self) < fuel ->
  _update_func_mainloop_live on_call fuel (during :: later) now self =
  match after_try (cycle_of (_update_interval self) now (_update_funcs self)) with
  | Some (t, Ok) =>
      if _application_closed (happen during self)
      then Some ([cycle_of (_update_interval self) now (_update_funcs self)], Returned t)
      else
        match _update_func_mainloop_live on_call fuel later t (happen during self) with
        | Some (cs, fin) =>
            Some (cycle_of (_update_interval self) now (_update_funcs self) :: cs, fin)
        | None => None
        end
  | Some (t, Err e) =>
      Some ([cycle_of (_update_interval self) now (_update_funcs self)], Raised t e)
  | None => Some ([cycle_of (_update_interval self) now (_update_funcs self)], Suspended)
  end.
Proof.
  intros Hpure Hfuel. cbn [_update_func_mainloop_live].
  rewrite comprehension_async; [|exact Hpure|lia]. reflexivity.
Qed.

(** The first cycle of the loop, and where its second comes from. *)
Lemma update_mainloop_live_cycles on_call fuel during later now self cs fin :
  Forall (fun f => forall l, on_call f l = l) (_update_funcs self) ->
  length (_update_funcs self) < fuel ->
  _update_func_mainloop_live on_call fuel (during :: later) now self = Some (cs, fin) ->
  exists rest,
    cs = cycle_of (_update_interval self) now (_update_funcs self) :: rest /\
    (rest <> [] ->
     exists t,
       _update_func_mainloop_live on_call fuel later t (happen during self) =
       Some (rest, fin)).
Proof.
  intros Hpure Hfuel H. rewrite update_mainloop_live_step in H by assumption.
  destruct (after_try _) as [[t [|e]]|].
  - destruct (_application_closed (happen during self)).
    + inversion H; subst. exists []. split; [reflexivity | congruence].
    + destruct (_update_func_mainloop_live on_call fuel later t (happen during self))
        as [[cs' fin']|] eqn:Hrec; [|discriminate].
      inversion H; subst. exists cs'. split; [reflexivity|]. intros _. now exists t.
  - inversion H; subst. exists []. split; [reflexivity | congruence].
  - inversion H; subst. exists []. split; [reflexivity | congruence].
Qed.

Lemma fate_fits_settle (b : behaviour) (s : nat) (cancel : option nat) :
  fate_fits b (settle (run b s) cancel).
Proof.
  destruct b as [d|d e|]; destruct cancel as [k|]; cbn [run settle].
  - destruct (k <? s + d); cbn; eauto.
  - cbn. eauto.
  - destruct (k <? s + d); cbn; eauto.
  - cbn. eauto.
  - exact I.
  - reflexivity.
Qed.

Lemma list_remove_at f before after :
  ~ In f before -> list_remove f (before ++ f :: after) = Some (before ++ after).
Proof.
  induction before as [|y rest IH]; intros Hnin; cbn.
  - destruct (callable_eq_dec f f); [reflexivity | contradiction].
  - destruct (callable_eq_dec y f) as [->|Hne].
    + exfalso. apply Hnin. now left.
    + rewrite IH; [reflexivity|]. intros Hin. apply Hnin. now right.
Qed.

Lemma fates_fit now cancel called :
  Forall2 (fun f x => fate_fits (fn_body f) x) called
          (map (fun f => settle (run (fn_body f) now) cancel) called).
Proof.
  induction called as [|f rest IH]; cbn [map]; constructor.
  - apply fate_fits_settle.
  - exact IH.
Qed.

(** One task per function called, in the order of the calls, and each
    the coroutine of its function. *)
Lemma cycle_of_tasks interval now called :
  Forall2 (fun f x => fate_fits (fn_body f) x) called
          (cycle_tasks (cycle_of interval now called)).
Proof.
  cbn [cycle_tasks cycle_of].
  change (WaitFor (Gather (map call called)) interval) with (guarded interval called).
  rewrite fates_guarded. apply fates_fit.
Qed.




(** C3 (as amended).  In a cycle none of whose update functions raises
    within the interval, however fast or slow they are and also when
    there are none, the awaited gather ends no earlier than one interval
    after the cycle started: that is when the sleep beside the update
    tasks is over.  The next cycle, if there is one, starts at that very
    time, not before. *)
Theorem cycle_lasts_interval
    (env : list meanwhile) (now : nat) (self : AsyncCTK) (n : nat) (c : cycle) :
  nth_error (fst (_update_func_mainloop env now self)) n = Some c ->
  Forall (fun f => raises_within (_update_interval self) f = false) (cycle_funcs c) ->
  exists t r,
    cycle_awaited c = Some (t, r) /\
    cycle_start c + _update_interval self <= t /\
    cycle_floor c = [Done (cycle_start c + _update_interval self) Ok] /\
    forall c',
      nth_error (fst (_update_func_mainloop env now self)) (S n) = Some c' ->
      cycle_start c' = t.
Proof.
  intros H Hno. destruct (nth_cycle _ _ _ _ H) as [Hc _].
  set (s := cycle_start c) in *. set (st := at_cycle n env self) in *.
  assert (Hint : _update_interval st = _update_interval self)
    by apply at_cycle_interval.
  assert (Hfuncs : cycle_funcs c = _update_funcs st) by (rewrite Hc; reflexivity).
  assert (Hfloor : cycle_floor c = [Done (s + _update_interval self) Ok]).
  { rewrite Hc, <- Hint. reflexivity. }
  assert (Haw : cycle_awaited c =
                resolve (awaited (_update_interval self) (cycle_funcs c)) s).
  { rewrite Hfuncs, <- Hint, Hc. reflexivity. }
  assert (Hnext : forall t r,
             cycle_awaited c = Some (t, r) ->
             (r = Ok \/ r = Err TimeoutError) ->
             forall c',
               nth_error (fst (_update_func_mainloop env now self)) (S n) = Some c' ->
               cycle_start c' = t).
  { intros t r Hr Hcase c' H'. pose proof (next_cycle _ _ _ _ H H') as Hn.
    unfold after_try in Hn. rewrite Hr in Hn.
    destruct Hcase as [-> | ->]; inversion Hn; reflexivity. }
  destruct (@awaited_without_failure _ s _ Hno) as [Hok | Hto];
    rewrite <- Haw in *.
  - exists (s + _update_interval self), Ok. repeat split; auto.
    eapply Hnext; eauto.
  - exists (s + _update_interval self), (Err TimeoutError). repeat split; auto.
    eapply Hnext; eauto.
Qed.

Lemma cycle_lasts_interval_witness :
  exists t r,
    cycle_awaited (_update_func_cycle 0 (exec (add_update_func refresh) (__init__ 1000))) =
      Some (t, r) /\
    0 + 1000 <= t /\
    cycle_floor (_update_func_cycle 0 (exec (add_update_func refresh) (__init__ 1000))) =
      [Done (0 + 1000) Ok] /\
    forall c',
      nth_error
        (fst (_update_func_mainloop [[]; []] 0
                (exec (add_update_func refresh) (__init__ 1000)))) 1 = Some c' ->
      cycle_start c' = t.
Proof.
  apply (@cycle_lasts_interval [[]; []] 0
           (exec (add_update_func refresh) (__init__ 1000)) 0
           (_update_func_cycle 0 (exec (add_update_func refresh) (__init__ 1000)))).
  - reflexivity.
  - repeat constructor.
Defined.

(** C3 (as stated, refuted).  With an interval of 1000 ms, an update
    function that raises TimeoutError after 10 ms ends the cycle after 10
    ms; the loop takes that for an overrun and starts the next cycle at
    10 ms, while the sleep of the first cycle lasts until 1000 ms.  An
    update function that raises any other exception after 10 ms ends the
    cycle, and the loop, after 10 ms. *)
Lemma cycle_cut_short_by_raise :
  (let self := exec (add_update_func (Callable 8 (Raises 10 TimeoutError)))
                 (__init__ 1000) in
   map (fun c => (cycle_start c, cycle_awaited c, cycle_floor c))
       (fst (_update_func_mainloop [[]; []] 0 self)) =
     [(0, Some (10, Err TimeoutError), [Done 1000 Ok]);
      (10, Some (20, Err TimeoutError), [Done 1010 Ok])]) /\
  (let self := exec (add_update_func (Callable 9 (Raises 10 (UserError 1))))
                 (__init__ 1000) in
   map (fun c => (cycle_start c, cycle_awaited c)) (fst (_update_func_mainloop [[]; []] 0 self)) =
     [(0, Some (10, Err (UserError 1)))] /\
   snd (_update_func_mainloop [[]; []] 0 self) = Raised 10 (UserError 1)).
Proof. repeat split; reflexivity. Qed.

(** ** Cycles in which code takes time *)

Lemma at_arming_free at_ called :
  at_arming (fun _ => 0) at_ at_ called = called.
Proof.
  induction called as [|f others IH]; cbn [at_arming]; [reflexivity|].
  rewrite Nat.add_0_r, IH. f_equal.
  destruct f as [id b]. cbn [fn_id fn_body]. f_equal.
  destruct b as [d|d e|]; unfold rest_of; [| |reflexivity];
    replace (at_ + d - at_) with d by lia; reflexivity.
Qed.

Lemma armed_free now called :
  armed (fun _ => 0) now called = now.
Proof.
  unfold armed.
  assert (H : list_sum (map (fun _ : callable => 0) called) = 0).
  { induction called as [|f others IH]; [reflexivity | exact IH]. }
  rewrite H. apply Nat.add_0_r.
Qed.

(** Where code takes no time the finer clock is the clock of
    [_update_func_cycle]. *)
Lemma update_func_cycle_free now self :
  _update_func_cycle_busy (fun _ => 0) now self = _update_func_cycle now self.
Proof.
  unfold _update_func_cycle_busy, pending.
  rewrite armed_free, at_arming_free. reflexivity.
Qed.

Lemma update_func_mainloop_free env :
  forall now self,
    _update_func_mainloop_busy (fun _ => 0) env now self =
    _update_func_mainloop env now self.
Proof.
  induction env as [|during later IH]; intros now self; [reflexivity|].
  cbn [_update_func_mainloop_busy _update_func_mainloop].
  rewrite update_func_cycle_free.
  destruct (after_try (_update_func_cycle now self)) as [[t [|e]]|]; try reflexivity.
  now rewrite IH.
Qed.

Lemma armed_not_before busy now called :
  now <= armed busy now called.
Proof. unfold armed. lia. Qed.

Lemma update_func_cycle_busy_awaited busy now self :
  cycle_awaited (_update_func_cycle_busy busy now self) =
  resolve (awaited (_update_interval self) (pending busy now (_update_funcs self)))
    (armed busy now (_update_funcs self)).
Proof. reflexivity. Qed.

Lemma update_func_cycle_busy_tasks busy now self :
  cycle_tasks (_update_func_cycle_busy busy now self) =
  fates (guarded (_update_interval self) (pending busy now (_update_funcs self)))
    (armed busy now (_update_funcs self)) None.
Proof. reflexivity. Qed.

Lemma update_func_cycle_busy_printed busy now self :
  cycle_printed (_update_func_cycle_busy busy now self) =
  match cycle_awaited (_update_func_cycle_busy busy now self) with
  | Some (_, Err TimeoutError) => [UpdateFuncExceeded (_update_interval self)]
  | _ => []
  end.
Proof. reflexivity. Qed.

Lemma update_mainloop_busy_cycles busy during later now self :
  fst (_update_func_mainloop_busy busy (during :: later) now self) =
  _update_func_cycle_busy busy now self ::
  match after_try (_update_func_cycle_busy busy now self) with
  | Some (t, Ok) =>
      if _application_closed (happen during self) then []
      else fst (_update_func_mainloop_busy busy later t (happen during self))
  | _ => []
  end.
Proof.
  cbn [_update_func_mainloop_busy].
  destruct (after_try (_update_func_cycle_busy busy now self)) as [[t [|e]]|];
    try reflexivity.
  destruct (_application_closed (happen during self)); [reflexivity|].
  destruct (_update_func_mainloop_busy busy later t (happen during self)); reflexivity.
Qed.

(** What the deadline at [now + interval] makes of each coroutine. *)
Lemma at_deadline_fates interval now funcs :
  Forall2 (fun f x =>
             if returns_within interval f
             then exists t, x = Done t Ok /\ t <= now + interval
             else x = Cancelled (now + interval))
          funcs (map (at_deadline interval now) funcs).
Proof.
  induction funcs as [|f others IH]; cbn [map]; constructor; [|exact IH].
  unfold returns_within, at_deadline.
  destruct (fn_body f) as [d|d e|]; try reflexivity.
  destruct (Nat.leb_spec d interval); [|reflexivity].
  exists (now + d). split; [reflexivity | lia].
Qed.




(** * Further properties *)

(** ** The commands queue *)

Lemma callback_commands_queue e now self :
  commands_queue (exec (callback e now) self) =
  commands_queue self ++ clicked [(now, e)].
Proof.
  destruct e; cbn; try (now rewrite app_nil_r).
  - reflexivity.
  - unfold exec, remove_update_func.
    destruct (list_remove update_func (_update_funcs self)); cbn;
      now rewrite app_nil_r.
Qed.

Lemma clicked_app a b : clicked (a ++ b) = clicked a ++ clicked b.
Proof. unfold clicked. apply flat_map_app. Qed.

Lemma happen_commands_queue during self :
  commands_queue (happen during self) = commands_queue self ++ clicked during.
Proof.
  revert self. induction during as [|[t e] rest IH]; intros self.
  - cbn. now rewrite app_nil_r.
  - change (happen ((t, e) :: rest) self)
      with (happen rest (exec (callback e t) self)).
    rewrite IH, callback_commands_queue, <- app_assoc.
    now rewrite <- clicked_app.
Qed.

Lemma clicked_in during c :
  In c (clicked during) <-> In (created c, Click (handler c)) during.
Proof.
  unfold clicked. rewrite in_flat_map. split.
  - intros ([t e] & Hin & Hc). cbn in Hc.
    destruct e; cbn in Hc; try contradiction.
    destruct Hc as [<-|[]]. exact Hin.
  - intros Hin. exists (created c, Click (handler c)). split; [exact Hin|].
    cbn. left. destruct c; reflexivity.
Qed.

(** X1. Whatever callbacks run, the commands queue only grows at its end:
    by one future for each call of a wrapper, in the order of the calls,
    each holding the wrapped function and stamped with the time of the
    call.  Calls of [add_update_func] and [remove_update_func] (failed
    ones too) and the destruction of the window leave the queue alone. *)
Theorem wrappers_append_in_call_order (during : meanwhile) (self : AsyncCTK) :
  commands_queue (happen during self) = commands_queue self ++ clicked during /\
  (forall c, In c (clicked during) <-> In (created c, Click (handler c)) during) /\
  (forall a b, clicked (a ++ b) = clicked a ++ clicked b).
Proof.
  split; [apply happen_commands_queue|].
  split; [apply clicked_in | apply clicked_app].
Qed.

(** ** The dispatcher over time *)

Lemma command_mainloop_step during later now self :
  _command_mainloop (during :: later) now self =
  match commands_queue self with
  | [] => _command_mainloop later (now + 100) (happen during self)
  | cmd :: rest =>
      let d := {| dispatched := cmd;
                  taken_at := now;
                  resumed := await_at now
                               (resolve (command_awaitable cmd) (created cmd)) |} in
      let self1 := set_commands_queue rest self in
      match resumed d with
      | Some (t, Ok) =>
          (d :: fst (_command_mainloop later (t + 100) (happen during self1)),
           snd (_command_mainloop later (t + 100) (happen during self1)))
      | Some (t, Err e) => ([d], Raised t e)
      | None => ([d], Suspended)
      end
  end.
Proof.
  cbn [_command_mainloop]. unfold _command_iteration.
  destruct (commands_queue self) as [|cmd rest]; [reflexivity|].
  cbn zeta. cbn [resumed].
  destruct (await_at now (resolve (command_awaitable cmd) (created cmd)))
    as [[t [|e]]|]; try reflexivity.
  destruct (_command_mainloop later (t + 100)
              (happen during (set_commands_queue rest self))); reflexivity.
Qed.

Lemma await_at_not_before now c t r :
  await_at now c = Some (t, r) -> now <= t.
Proof.
  destruct c as [[tc rc]|]; cbn; intros H; inversion H; lia.
Qed.

(** Nothing is taken before the loop is started. *)
Lemma taken_not_before env :
  forall now self d,
    In d (fst (_command_mainloop env now self)) -> now <= taken_at d.
Proof.
  induction env as [|during later IH]; intros now self d Hin.
  - destruct Hin.
  - rewrite command_mainloop_step in Hin.
    destruct (commands_queue self) as [|cmd rest].
    + apply IH in Hin. lia.
    + cbn zeta in Hin. cbn [resumed] in Hin.
      destruct (await_at now (resolve (command_awaitable cmd) (created cmd)))
        as [[t [|e]]|] eqn:Haw; cbn [fst] in Hin.
      * destruct Hin as [<-|Hin]; [cbn; lia|].
        apply IH in Hin. apply await_at_not_before in Haw. lia.
      * destruct Hin as [<-|[]]. cbn. lia.
      * destruct Hin as [<-|[]]. cbn. lia.
Qed.

(** X2. The dispatcher is first in, first out: the commands it has taken
    so far are, in order, the first of those submitted (the ones in the
    queue at the start, then the ones the wrappers put there while it ran);
    none is skipped, taken twice or taken out of turn. *)
Theorem dispatcher_takes_in_submission_order
    (env : list meanwhile) (now : nat) (self : AsyncCTK) :
  exists waiting,
    commands_queue self ++ clicked (concat env) =
    map dispatched (fst (_command_mainloop env now self)) ++ waiting.
Proof.
  revert now self. induction env as [|during later IH]; intros now self.
  - exists (commands_queue self ++ clicked (concat [])). reflexivity.
  - rewrite command_mainloop_step. cbn [concat]. rewrite clicked_app.
    destruct (commands_queue self) as [|cmd rest] eqn:Hq.
    + destruct (IH (now + 100) (happen during self)) as (waiting & Hw).
      rewrite happen_commands_queue, Hq in Hw. exists waiting. exact Hw.
    + cbn zeta. cbn [resumed].
      destruct (await_at now (resolve (command_awaitable cmd) (created cmd)))
        as [[t [|e]]|]; cbn [fst map dispatched].
      * destruct (IH (t + 100) (happen during (set_commands_queue rest self)))
          as (waiting & Hw).
        rewrite happen_commands_queue in Hw. cbn [commands_queue set_commands_queue] in Hw.
        exists waiting. cbn. f_equal. rewrite <- Hw. now rewrite app_assoc.
      * eexists. cbn. reflexivity.
      * eexists. cbn. reflexivity.
Qed.

(** X3. The dispatcher awaits one command at a time: it takes the next
    command only after the await of the one before has ended without
    error, and then not before the sleep of 100 ms that follows every
    pass is over. *)
Theorem dispatcher_awaits_one_at_a_time
    (env : list meanwhile) (now : nat) (self : AsyncCTK) (n : nat) (d d' : dispatch) :
  nth_error (fst (_command_mainloop env now self)) n = Some d ->
  nth_error (fst (_command_mainloop env now self)) (S n) = Some d' ->
  exists t,
    resumed d = Some (t, Ok) /\
    taken_at d <= t /\
    t + 100 <= taken_at d'.
Proof.
  revert now self n. induction env as [|during later IH]; intros now self n H H'.
  - destruct n; discriminate.
  - rewrite command_mainloop_step in H, H'.
    destruct (commands_queue self) as [|cmd rest].
    + eapply IH; eauto.
    + cbn zeta in H, H'. cbn [resumed] in H, H'.
      destruct (await_at now (resolve (command_awaitable cmd) (created cmd)))
        as [[t [|e]]|] eqn:Haw; cbn [fst] in H, H';
        try (destruct n; discriminate).
      destruct n as [|n].
      * cbn in H. inversion H; subst. cbn [resumed taken_at]. exists t.
        split; [reflexivity|]. split.
        -- eapply await_at_not_before; eauto.
        -- eapply taken_not_before. apply (nth_error_In _ 0). exact H'.
      * eapply IH; [exact H | exact H'].
Qed.

Lemma dispatcher_awaits_one_at_a_time_witness :
  exists t,
    resumed {| dispatched := {| created := 0; handler := async_show_popup |};
               taken_at := 0;
               resumed := Some (2000, Ok) |} = Some (t, Ok) /\
    0 <= t /\
    t + 100 <= taken_at {| dispatched := {| created := 0; handler := refresh |};
                           taken_at := 2100;
                           resumed := Some (2100, Ok) |}.
Proof.
  apply (@dispatcher_awaits_one_at_a_time [[]; []] 0
           (happen [(0, Click async_show_popup); (0, Click refresh)] (__init__ 1000))
           0); reflexivity.
Defined.

(** X4. The dispatcher has no way out of its own: it is never left by a
    return.  If it ends with an exception, that exception is the one the
    last command it took was awaited with, at the time that await ended. *)
Theorem dispatcher_ends_only_by_a_command
    (env : list meanwhile) (now : nat) (self : AsyncCTK) :
  (forall t, snd (_command_mainloop env now self) <> Returned t) /\
  (forall t e,
     snd (_command_mainloop env now self) = Raised t e ->
     exists before d,
       fst (_command_mainloop env now self) = before ++ [d] /\
       resumed d = Some (t, Err e)).
Proof.
  revert now self. induction env as [|during later IH]; intros now self.
  - split; cbn; intros; discriminate.
  - rewrite command_mainloop_step.
    destruct (commands_queue self) as [|cmd rest]; [apply IH|].
    cbn zeta. cbn [resumed].
    destruct (await_at now (resolve (command_awaitable cmd) (created cmd)))
      as [[t0 [|e0]]|]; cbn [fst snd].
    + destruct (IH (t0 + 100) (happen during (set_commands_queue rest self)))
        as [Hret Hraise].
      split; [exact Hret|]. intros t e H.
      destruct (Hraise t e H) as (before & d & -> & Hd).
      eexists (_ :: before), d. split; [reflexivity | exact Hd].
    + split; [discriminate|]. intros t e H. inversion H; subst.
      exists [], {| dispatched := cmd; taken_at := now; resumed := Some (t, Err e) |}.
      split; reflexivity.
    + split; discriminate.
Qed.

(** X5. A command whose handler never finishes holds the dispatcher for
    good: the loop stays in that await, and the commands behind it are
    never taken, so an exception of theirs is never seen by the loop. *)
Theorem hanging_command_blocks_dispatcher
    (during : meanwhile) (later : list meanwhile) (now : nat) (self : AsyncCTK)
    (cmd : command) (rest : list command) :
  commands_queue self = cmd :: rest ->
  fn_body (handler cmd) = Hangs ->
  _command_mainloop (during :: later) now self =
  ([{| dispatched := cmd; taken_at := now; resumed := None |}], Suspended).
Proof.
  intros Hq Hbody. rewrite command_mainloop_step, Hq.
  unfold command_awaitable. cbn. rewrite Hbody. reflexivity.
Qed.

Lemma hanging_command_blocks_dispatcher_witness :
  _command_mainloop [[]; []; []] 0
    (happen [(0, Click (Callable 6 Hangs));
             (0, Click (Callable 7 (Raises 30 (UserError 1))))]
       (__init__ 1000)) =
  ([{| dispatched := {| created := 0; handler := Callable 6 Hangs |};
       taken_at := 0;
       resumed := None |}],
   Suspended).
Proof.
  apply (@hanging_command_blocks_dispatcher [] [[]; []] 0 _
           {| created := 0; handler := Callable 6 Hangs |}
           [{| created := 0; handler := Callable 7 (Raises 30 (UserError 1)) |}]);
    reflexivity.
Defined.

(** X6. With an empty queue and no wrapper called, the dispatcher does
    nothing but sleep: however long it is observed, it takes no command
    and is still running. *)
Theorem idle_dispatcher_keeps_polling
    (env : list meanwhile) (now : nat) (self : AsyncCTK) :
  commands_queue self = [] ->
  clicked (concat env) = [] ->
  _command_mainloop env now self = ([], StillRunning).
Proof.
  revert now self. induction env as [|during later IH]; intros now self Hq Hc.
  - reflexivity.
  - rewrite command_mainloop_step, Hq.
    cbn [concat] in Hc. rewrite clicked_app in Hc.
    apply app_eq_nil in Hc as [Hd Hl].
    apply IH; [|exact Hl].
    now rewrite happen_commands_queue, Hq, Hd.
Qed.

Lemma idle_dispatcher_keeps_polling_witness :
  _command_mainloop [[(5, CallAdd refresh)]; [(120, Redraw)]; []] 0 ExampleGUI =
  ([], StillRunning).
Proof.
  apply (@idle_dispatcher_keeps_polling
           [[(5, CallAdd refresh)]; [(120, Redraw)]; []] 0 ExampleGUI);
    reflexivity.
Defined.

(** ** Adding and removing again *)

Lemma list_remove_behind f l :
  ~ In f l -> list_remove f (l ++ [f]) = Some l.
Proof.
  induction l as [|y rest IH]; intros Hnin; cbn.
  - destruct (callable_eq_dec f f); [reflexivity | contradiction].
  - destruct (callable_eq_dec y f) as [->|Hne].
    + exfalso. apply Hnin. now left.
    + rewrite IH; [reflexivity|]. intros Hin. apply Hnin. now right.
Qed.

Lemma list_remove_app f l l' m :
  list_remove f l = Some l' -> list_remove f (l ++ m) = Some (l' ++ m).
Proof.
  revert l'. induction l as [|y rest IH]; intros l' H; cbn in *.
  - discriminate.
  - destruct (callable_eq_dec y f); [now inversion H|].
    destruct (list_remove f rest) as [rest'|]; [|discriminate].
    inversion H; subst. now rewrite (IH rest' eq_refl).
Qed.

Lemma set_update_funcs_same self :
  set_update_funcs (_update_funcs self) self = self.
Proof. destruct self; reflexivity. Qed.

(** X7. Registering a function that is not registered and removing it
    again gives back the object exactly as it was. *)
Theorem add_then_remove_restores (self : AsyncCTK) (update_func : callable) :
  ~ In update_func (_update_funcs self) ->
  remove_update_func update_func (exec (add_update_func update_func) self) =
  (Value tt, self).
Proof.
  intros Hnin. unfold remove_update_func. cbn.
  rewrite (list_remove_behind _ _ Hnin).
  f_equal. destruct self; reflexivity.
Qed.

Lemma add_then_remove_restores_witness :
  remove_update_func async_show_popup
    (exec (add_update_func async_show_popup) twice_registered) =
  (Value tt, twice_registered).
Proof.
  apply (add_then_remove_restores twice_registered async_show_popup).
  cbn. intros [H|[H|[H|[]]]]; discriminate H.
Defined.

(** X8. Removal takes the oldest registration.  When a function that is
    registered already is registered once more and then removed, it is
    its earlier entry that goes: the function ends up at the end of the
    registry, behind the entries that used to follow it, and the registry
    is as long as before. *)
Theorem readd_then_remove_moves_to_end (self : AsyncCTK) (update_func : callable) :
  In update_func (_update_funcs self) ->
  exists before after,
    _update_funcs self = before ++ update_func :: after /\
    ~ In update_func before /\
    remove_update_func update_func (exec (add_update_func update_func) self) =
    (Value tt, set_update_funcs (before ++ after ++ [update_func]) self).
Proof.
  intros Hin.
  destruct (list_remove_found update_func _ Hin) as (l' & Hl').
  destruct (list_remove_first _ _ Hl') as (before & after & Hreg & Hnin & ->).
  exists before, after. repeat split; auto.
  unfold remove_update_func. cbn.
  rewrite (list_remove_app _ _ [update_func] Hl'), <- app_assoc.
  reflexivity.
Qed.

Lemma readd_then_remove_moves_to_end_witness :
  exists before after,
    _update_funcs twice_registered = before ++ refresh :: after /\
    ~ In refresh before /\
    remove_update_func refresh (exec (add_update_func refresh) twice_registered) =
    (Value tt, set_update_funcs (before ++ after ++ [refresh]) twice_registered).
Proof.
  apply (readd_then_remove_moves_to_end twice_registered refresh).
  cbn. auto.
Defined.

(** ** Fields set once *)

Lemma replay_app a b self :
  replay (a ++ b) self = replay b (replay a self).
Proof. unfold replay. apply fold_left_app. Qed.

(** X9. [_update_interval] and [_window_exists] are assigned at
    construction and never again: after any history the interval is the
    one given to the constructor, and [_window_exists] is True, also once
    the window has been destroyed. *)
Theorem interval_and_window_flag_fixed (update_interval : nat) (history : list step) :
  _update_interval (replay history (__init__ update_interval)) = update_interval /\
  _window_exists (replay history (__init__ update_interval)) = true /\
  forall now,
    tk_destroyed
      (replay (history ++ [Invoke now Destroy]) (__init__ update_interval)) = true /\
    _window_exists
      (replay (history ++ [Invoke now Destroy]) (__init__ update_interval)) = true.
Proof.
  assert (H : forall h, constants (replay h (__init__ update_interval)) =
                        (update_interval, false, true)).
  { intros h. now rewrite replay_constants. }
  repeat split.
  - specialize (H history). unfold constants in H. congruence.
  - specialize (H history). unfold constants in H. congruence.
  - rewrite replay_app. reflexivity.
  - specialize (H (history ++ [Invoke now Destroy])).
    unfold constants in H. congruence.
Qed.

(** ** The pump over time *)

Lemma gui_iteration_result now self :
  _gui_iteration now self =
  (Value (if tk_destroyed
               (happen (map (pair now) (tk_events self)) (set_tk_events [] self))
          then PumpBreak else PumpSleep 10),
   happen (map (pair now) (tk_events self)) (set_tk_events [] self)).
Proof.
  unfold _gui_iteration, bind. rewrite drain_all.
  unfold try_except, winfo_exists, raise, ret.
  destruct (tk_destroyed _); reflexivity.
Qed.

Lemma callback_tk_destroyed e now self :
  tk_destroyed (exec (callback e now) self) = true <->
  tk_destroyed self = true \/ e = Destroy.
Proof.
  destruct e; cbn;
    try (split; [intros H; now left | intros [H|H]; [exact H | discriminate H]]).
  - unfold exec, remove_update_func.
    destruct (list_remove update_func (_update_funcs self)); cbn;
      (split; [intros H; now left | intros [H|H]; [exact H | discriminate H]]).
  - split; auto.
Qed.

Lemma happen_tk_destroyed during self :
  tk_destroyed (happen during self) = true <->
  tk_destroyed self = true \/ In Destroy (map snd during).
Proof.
  revert self. induction during as [|[t e] rest IH]; intros self.
  - cbn. split; [auto | intros [H|[]]; exact H].
  - change (happen ((t, e) :: rest) self)
      with (happen rest (exec (callback e t) self)).
    rewrite IH, callback_tk_destroyed. cbn. split.
    + intros [[H|H]|H]; auto.
    + intros [H|[H|H]]; auto.
Qed.

Lemma map_snd_pair (now : nat) (evs : list event) :
  map snd (map (pair now) evs) = evs.
Proof. rewrite map_map. cbn. apply map_id. Qed.

(** X10. While the window is not destroyed and no event destroys it, the
    pump keeps running: however many passes are observed, the loop has
    not ended and the window is still there. *)
Theorem pump_runs_while_window_lives
    (arrivals : list (list event)) (now : nat) (self : AsyncCTK) :
  tk_destroyed self = false ->
  ~ In Destroy (tk_events self ++ concat arrivals) ->
  fst (_gui_mainloop arrivals now self) = StillRunning /\
  tk_destroyed (snd (_gui_mainloop arrivals now self)) = false.
Proof.
  revert now self. induction arrivals as [|arriving later IH];
    intros now self Halive Hno.
  - cbn. auto.
  - cbn [_gui_mainloop]. rewrite gui_iteration_result.
    set (drained := happen (map (pair now) (tk_events self)) (set_tk_events [] self)).
    assert (Hd : tk_destroyed drained = false).
    { destruct (tk_destroyed drained) eqn:Hd; [|reflexivity].
      apply happen_tk_destroyed in Hd. rewrite map_snd_pair in Hd.
      destruct Hd as [Hd|Hd].
      - cbn in Hd. congruence.
      - exfalso. apply Hno. apply in_or_app. now left. }
    rewrite Hd. apply IH.
    + exact Hd.
    + cbn [tk_events set_tk_events]. unfold drained.
      rewrite happen_tk_events. cbn [tk_events set_tk_events app].
      intros Hin. apply Hno. apply in_or_app. right. cbn [concat]. exact Hin.
Qed.

Lemma pump_runs_while_window_lives_witness :
  fst (_gui_mainloop [[Click async_show_popup]; [Redraw; CallAdd refresh]; []] 0
         ExampleGUI) = StillRunning /\
  tk_destroyed
    (snd (_gui_mainloop [[Click async_show_popup]; [Redraw; CallAdd refresh]; []] 0
            ExampleGUI)) = false.
Proof.
  apply (@pump_runs_while_window_lives
           [[Click async_show_popup]; [Redraw; CallAdd refresh]; []] 0 ExampleGUI).
  - reflexivity.
  - cbn. intros [H|[H|[H|[]]]]; discriminate H.
Defined.

(** X11. Once the window is destroyed, or an event that waits is the one
    that destroys it, the pass of the pump under way is its last: the
    loop returns at the time of that pass, by [break] and not by an
    exception, without sleeping again, and whatever events arrive later
    does not keep it. *)
Theorem pump_returns_once_destroyed
    (arriving : list event) (later : list (list event)) (now : nat) (self : AsyncCTK) :
  tk_destroyed self = true \/ In Destroy (tk_events self) ->
  fst (_gui_mainloop (arriving :: later) now self) = Returned now.
Proof.
  intros Hgone. cbn [_gui_mainloop]. rewrite gui_iteration_result.
  assert (Hd : tk_destroyed
                 (happen (map (pair now) (tk_events self)) (set_tk_events [] self))
               = true).
  { apply happen_tk_destroyed. rewrite map_snd_pair.
    destruct Hgone as [H|H]; [left; exact H | right; exact H]. }
  now rewrite Hd.
Qed.

Lemma pump_returns_once_destroyed_witness :
  fst (_gui_mainloop [[Click refresh]; []] 70
         (replay [Arrive Redraw; Arrive Destroy] ExampleGUI)) = Returned 70.
Proof.
  apply (@pump_returns_once_destroyed [Click refresh] [[]] 70
           (replay [Arrive Redraw; Arrive Destroy] ExampleGUI)).
  right. cbn. auto.
Defined.

(** ** Cycles that end without an overrun *)

Lemma at_deadline_in_time interval now f :
  returns_within interval f = true ->
  settle (run (fn_body f) now) None = at_deadline interval now f /\
  forall t, at_deadline interval now f <> Cancelled t.
Proof.
  unfold returns_within, at_deadline. destruct (fn_body f); try discriminate.
  intros ->. cbn. split; [reflexivity | discriminate].
Qed.

Lemma fates_guarded_in_time interval now funcs :
  Forall (fun f => returns_within interval f = true) funcs ->
  fates (guarded interval funcs) now None = map (at_deadline interval now) funcs.
Proof.
  intros Hall. rewrite fates_guarded.
  destruct (@inner_in_time interval now funcs Hall) as (m & -> & Hle).
  cbn [still_pending]. apply Nat.leb_le in Hle. rewrite Hle.
  apply map_ext_in. intros f Hf. rewrite Forall_forall in Hall.
  apply at_deadline_in_time. auto.
Qed.

Lemma at_arming_length busy armed_at called :
  forall from, length (at_arming busy armed_at from called) = length called.
Proof.
  induction called as [|f others IH]; intros from; cbn; [reflexivity|].
  now rewrite IH.
Qed.

(** X12. A cycle whose update coroutines are all through within one
    interval of the moment the deadline is armed prints no warning and
    cancels nothing: its tasks, one per registered function, all end by
    returning, and the await ends after them with no exception, no
    earlier than one interval after the update coroutines have had their
    first turns: the sleep beside them is slept out.  With an empty
    registry this is the idle tick. *)
Theorem punctual_cycle_is_silent (busy : callable -> nat) (now : nat) (self : AsyncCTK) :
  Forall (fun f => returns_within (_update_interval self) f = true)
         (pending busy now (_update_funcs self)) ->
  cycle_printed (_update_func_cycle_busy busy now self) = [] /\
  length (cycle_tasks (_update_func_cycle_busy busy now self)) =
    length (_update_funcs self) /\
  exists t,
    now + list_sum (map busy (_update_funcs self)) + _update_interval self <= t /\
    cycle_awaited (_update_func_cycle_busy busy now self) = Some (t, Ok) /\
    Forall (fun x => exists t', x = Done t' Ok /\ t' <= t)
           (cycle_tasks (_update_func_cycle_busy busy now self)).
Proof.
  intros Hall.
  set (armed_at := armed busy now (_update_funcs self)).
  assert (Haw : cycle_awaited (_update_func_cycle_busy busy now self) =
                Some (armed_at + _update_interval self, Ok)).
  { rewrite update_func_cycle_busy_awaited.
    exact (@awaited_in_time (_update_interval self) armed_at _ Hall). }
  assert (Htasks : cycle_tasks (_update_func_cycle_busy busy now self) =
                   map (at_deadline (_update_interval self) armed_at)
                       (pending busy now (_update_funcs self))).
  { rewrite update_func_cycle_busy_tasks.
    exact (@fates_guarded_in_time (_update_interval self) armed_at _ Hall). }
  split; [|split].
  - rewrite update_func_cycle_busy_printed, Haw. reflexivity.
  - rewrite Htasks, length_map. apply at_arming_length.
  - exists (armed_at + _update_interval self). split; [|split].
    + unfold armed_at, armed. lia.
    + exact Haw.
    + rewrite Htasks. apply Forall_forall. intros x Hx.
      apply in_map_iff in Hx as (f & <- & Hf).
      rewrite Forall_forall in Hall. specialize (Hall f Hf).
      unfold returns_within in Hall. unfold at_deadline.
      destruct (fn_body f) as [d| |]; try discriminate.
      rewrite Hall. apply Nat.leb_le in Hall.
      exists (armed_at + d). split; [reflexivity | lia].
Qed.

Lemma punctual_cycle_is_silent_witness :
  cycle_printed
    (_update_func_cycle_busy blocking_busy 0
       (exec (add_update_func blocking) (exec (add_update_func refresh) (__init__ 1000))))
    = [] /\
  length (cycle_tasks
            (_update_func_cycle_busy blocking_busy 0
               (exec (add_update_func blocking)
                  (exec (add_update_func refresh) (__init__ 1000))))) =
    length (_update_funcs
              (exec (add_update_func blocking)
                 (exec (add_update_func refresh) (__init__ 1000)))) /\
  exists t,
    0 + list_sum (map blocking_busy
                    (_update_funcs
                       (exec (add_update_func blocking)
                          (exec (add_update_func refresh) (__init__ 1000))))) + 1000 <= t /\
    cycle_awaited
      (_update_func_cycle_busy blocking_busy 0
         (exec (add_update_func blocking)
            (exec (add_update_func refresh) (__init__ 1000)))) = Some (t, Ok) /\
    Forall (fun x => exists t', x = Done t' Ok /\ t' <= t)
           (cycle_tasks
              (_update_func_cycle_busy blocking_busy 0
                 (exec (add_update_func blocking)
                    (exec (add_update_func refresh) (__init__ 1000))))).
Proof.
  apply (@punctual_cycle_is_silent blocking_busy 0
           (exec (add_update_func blocking)
              (exec (add_update_func refresh) (__init__ 1000)))).
  repeat constructor.
Defined.

(** ** The pace of the update loop *)

Lemma nth_error_before {A} (l : list A) n x :
  nth_error l (S n) = Some x -> exists y, nth_error l n = Some y.
Proof.
  revert l. induction n as [|n IH]; intros l H.
  - destruct l as [|y l]; [discriminate|]. exists y. reflexivity.
  - destruct l as [|y l]; [discriminate|]. cbn in H. apply IH in H. exact H.
Qed.

(** The [n]-th cycle on the finer clock is the loop body run on the
    state found at its start. *)
Lemma nth_cycle_busy busy env :
  forall n now self c,
    nth_error (fst (_update_func_mainloop_busy busy env now self)) n = Some c ->
    c = _update_func_cycle_busy busy (cycle_start c) (at_cycle n env self) /\
    (n = 0 -> cycle_start c = now).
Proof.
  induction env as [|during later IH]; intros n now self c H.
  - destruct n; discriminate.
  - rewrite update_mainloop_busy_cycles in H. destruct n as [|n]; cbn in H.
    + inversion H; subst. split; reflexivity.
    + rewrite at_cycle_succ.
      destruct (after_try (_update_func_cycle_busy busy now self)) as [[t [|e]]|];
        try (destruct n; discriminate).
      destruct (_application_closed (happen during self));
        [destruct n; discriminate|].
      destruct (IH _ _ _ _ H) as [Hc _]. split; [exact Hc | discriminate].
Qed.

(** No update coroutine raises before the deadline: the [try] statement
    ends normally one interval after the deadline was armed. *)
Lemma cycle_busy_end busy now self :
  Forall (fun f => raises_within (_update_interval self) f = false)
         (pending busy now (_update_funcs self)) ->
  after_try (_update_func_cycle_busy busy now self) =
  Some (armed busy now (_update_funcs self) + _update_interval self, Ok).
Proof.
  intros Hno. unfold after_try. rewrite update_func_cycle_busy_awaited.
  destruct (@awaited_without_failure (_update_interval self)
              (armed busy now (_update_funcs self)) _ Hno) as [-> | ->];
    reflexivity.
Qed.

Lemma next_cycle_busy busy env :
  forall n now self c c',
    nth_error (fst (_update_func_mainloop_busy busy env now self)) n = Some c ->
    nth_error (fst (_update_func_mainloop_busy busy env now self)) (S n) = Some c' ->
    Forall (fun f => raises_within (_update_interval self) f = false)
           (pending busy (cycle_start c) (cycle_funcs c)) ->
    cycle_start c + _update_interval self <= cycle_start c'.
Proof.
  induction env as [|during later IH]; intros n now self c c' H H' Hno.
  - destruct n; discriminate.
  - rewrite update_mainloop_busy_cycles in H, H'. destruct n as [|n]; cbn in H, H'.
    + inversion H; subst c. cbn [cycle_start cycle_funcs _update_func_cycle_busy] in *.
      rewrite (cycle_busy_end _ _ _ Hno) in H'.
      destruct (_application_closed (happen during self)); [discriminate|].
      destruct (@nth_cycle_busy busy later 0 _ _ _ H') as [_ Hs].
      rewrite (Hs eq_refl).
      pose proof (armed_not_before busy now (_update_funcs self)). lia.
    + destruct (after_try (_update_func_cycle_busy busy now self)) as [[t [|e]]|];
        try (destruct n; discriminate).
      destruct (_application_closed (happen during self));
        [destruct n; discriminate|].
      rewrite <- (interval_of_constants (happen_constants during self)) in *.
      eapply IH; eauto.
Qed.

Lemma cycle_start_bound busy env now self :
  Forall (fun c => Forall (fun f => raises_within (_update_interval self) f = false)
                     (pending busy (cycle_start c) (cycle_funcs c)))
         (fst (_update_func_mainloop_busy busy env now self)) ->
  forall n c,
    nth_error (fst (_update_func_mainloop_busy busy env now self)) n = Some c ->
    now + n * _update_interval self <= cycle_start c.
Proof.
  intros Hall. rewrite Forall_forall in Hall.
  induction n as [|n IH]; intros c H.
  - destruct (nth_cycle_busy _ _ _ _ _ H) as [_ Hs]. rewrite (Hs eq_refl). lia.
  - destruct (nth_error_before _ _ H) as (c0 & H0).
    pose proof (IH c0 H0) as Hs0.
    pose proof (next_cycle_busy _ _ _ _ _ H0 H (Hall c0 (nth_error_In _ _ H0))).
    lia.
Qed.

(** X13. The update loop is never faster than its interval.  As long as
    no update coroutine raises before the deadline of its cycle, a cycle
    starts no earlier than one interval after the cycle before it, and
    cycle number [n] (counting from 0) no earlier than [n] intervals
    after the loop was started, whatever the time the update functions
    take and whatever happens to the registry in between. *)
Theorem cycles_keep_their_distance
    (busy : callable -> nat) (env : list meanwhile) (now : nat) (self : AsyncCTK)
    (n : nat) (c : cycle) :
  Forall (fun c' => Forall (fun f => raises_within (_update_interval self) f = false)
                      (pending busy (cycle_start c') (cycle_funcs c')))
         (fst (_update_func_mainloop_busy busy env now self)) ->
  nth_error (fst (_update_func_mainloop_busy busy env now self)) n = Some c ->
  now + n * _update_interval self <= cycle_start c /\
  forall c',
    nth_error (fst (_update_func_mainloop_busy busy env now self)) (S n) = Some c' ->
    cycle_start c + _update_interval self <= cycle_start c'.
Proof.
  intros Hall H. split.
  - exact (cycle_start_bound _ _ _ _ Hall _ H).
  - intros c' H'. rewrite Forall_forall in Hall.
    exact (next_cycle_busy _ _ _ _ _ H H' (Hall c (nth_error_In _ _ H))).
Qed.

Lemma cycles_keep_their_distance_witness :
  0 + 2 * _update_interval ExampleGUI <=
    cycle_start (_update_func_cycle_busy label_busy 2010
                   (exec (add_update_func refresh) ExampleGUI)) /\
  forall c',
    nth_error
      (fst (_update_func_mainloop_busy label_busy
              [[]; [(1500, CallAdd refresh)]; []; []] 0 ExampleGUI)) 3 = Some c' ->
    cycle_start (_update_func_cycle_busy label_busy 2010
                   (exec (add_update_func refresh) ExampleGUI)) +
      _update_interval ExampleGUI <= cycle_start c'.
Proof.
  apply (@cycles_keep_their_distance label_busy
           [[]; [(1500, CallAdd refresh)]; []; []] 0 ExampleGUI 2
           (_update_func_cycle_busy label_busy 2010
              (exec (add_update_func refresh) ExampleGUI))).
  - repeat constructor.
  - reflexivity.
Defined.

(** ** Update functions that raise *)

Section Raising.

Variables (interval now : nat) (funcs : list callable).

(** Some update function raises within the interval: the inner gather
    fails with the first exception raised, in time. *)
Lemma first_raise_within :
  Exists (fun f => raises_within interval f = true) funcs ->
  exists t e f d,
    first_error (started now funcs) = Some (t, e) /\
    t <= now + interval /\
    In f funcs /\ fn_body f = Raises d e /\ t = now + d.
Proof.
  intros Hex. apply Exists_exists in Hex as (f0 & Hin0 & Hf0).
  unfold raises_within in Hf0.
  destruct (fn_body f0) as [|d0 e0|] eqn:Hb0; try discriminate.
  apply Nat.leb_le in Hf0.
  assert (Hin : In (Some (now + d0, Err e0)) (started now funcs)).
  { apply started_in. exists f0. rewrite Hb0. auto. }
  destruct (first_error (started now funcs)) as [[t e]|] eqn:Hfe.
  - pose proof (@first_error_least _ _ _ Hfe _ _ Hin) as Hle.
    apply first_error_in, started_in in Hfe as (f & Hf & Hrun).
    destruct (fn_body f) as [|d e'|] eqn:Hb; cbn in Hrun; inversion Hrun; subst.
    exists (now + d), e, f, d. repeat split; auto. lia.
  - exfalso. exact (proj1 (first_error_none _) Hfe _ _ Hin).
Qed.

(** The cycle then ends with that exception, at that time, and the
    deadline cancels nothing. *)
Lemma awaited_raise t e :
  first_error (started now funcs) = Some (t, e) ->
  t <= now + interval ->
  resolve (awaited interval funcs) now = Some (t, Err e) /\
  fates (guarded interval funcs) now None =
    map (fun f => settle (run (fn_body f) now) None) funcs.
Proof.
  intros Hfe Hle.
  assert (Hin : resolve (Gather (map call funcs)) now = Some (t, Err e)).
  { rewrite resolve_gather_calls. now apply gather_completion_err. }
  rewrite resolve_awaited, resolve_guarded, fates_guarded, Hin.
  cbn [still_pending]. apply Nat.leb_le in Hle. rewrite Hle.
  split; reflexivity.
Qed.

Lemma settle_never_cancelled (c : completion) t :
  settle c None <> Cancelled t.
Proof. destruct c as [[? ?]|]; discriminate. Qed.

End Raising.





(** ** The example program *)

Lemma at_cycle_quiet n k self :
  at_cycle k (repeat [] n) self = self.
Proof.
  unfold at_cycle. revert k.
  induction n as [|n IH]; intros k; destruct k; cbn; auto.
Qed.

(** Whatever time it takes to set the label, [update_time] has its full
    1.1 s of sleep before it when the deadline is armed. *)
Lemma pending_update_time busy now :
  pending busy now [update_time] = [update_time].
Proof.
  unfold pending, armed. cbn [at_arming map list_sum fn_id fn_body update_time rest_of].
  replace (now + busy update_time + 1100 - (now + list_sum [busy update_time]))
    with 1100 by (cbn [list_sum fold_right]; lia).
  reflexivity.
Qed.

(** X16. The example program overruns in every cycle, as its comment
    says ("will lead to a warning, because update takes longer than
    update_interval"), whatever time the code of [update_time] takes
    before its sleep.  With nothing else happening, every cycle of
    [ExampleGUI] calls [update_time] alone, cancels its coroutine at the
    deadline, no earlier than 1000 ms after the cycle started, and
    prints the warning once, quoting 1000 ms; cycle number [k] starts no
    earlier than [1000 * k] ms. *)
Theorem example_overruns_every_cycle
    (busy : callable -> nat) (n k : nat) (c : cycle) :
  nth_error (fst (_update_func_mainloop_busy busy (repeat [] n) 0 ExampleGUI)) k = Some c ->
  cycle_funcs c = [update_time] /\
  cycle_printed c = [UpdateFuncExceeded 1000] /\
  (exists t, cycle_tasks c = [Cancelled t] /\ cycle_start c + 1000 <= t) /\
  1000 * k <= cycle_start c.
Proof.
  intros H.
  assert (Hcycles : forall j c',
             nth_error (fst (_update_func_mainloop_busy busy (repeat [] n) 0 ExampleGUI)) j
               = Some c' ->
             c' = _update_func_cycle_busy busy (cycle_start c') ExampleGUI).
  { intros j c' Hj. destruct (nth_cycle_busy _ _ _ _ _ Hj) as [Hc' _].
    now rewrite at_cycle_quiet in Hc'. }
  assert (Hno : Forall (fun f => raises_within 1000 f = false) [update_time])
    by (repeat constructor).
  assert (Hslow : Exists (fun f => returns_within 1000 f = false) [update_time])
    by (constructor; reflexivity).
  assert (Hall : Forall (fun c' => Forall (fun f => raises_within
                                             (_update_interval ExampleGUI) f = false)
                                     (pending busy (cycle_start c') (cycle_funcs c')))
                   (fst (_update_func_mainloop_busy busy (repeat [] n) 0 ExampleGUI))).
  { apply Forall_forall. intros c' Hin.
    apply In_nth_error in Hin as (j & Hj).
    rewrite (Hcycles j c' Hj). cbn [cycle_start cycle_funcs _update_func_cycle_busy].
    change (_update_funcs ExampleGUI) with [update_time].
    rewrite pending_update_time. exact Hno. }
  pose proof (cycle_start_bound _ _ _ _ Hall _ H) as Hs.
  change (_update_interval ExampleGUI) with 1000 in Hs.
  set (s := cycle_start c) in *.
  set (armed_at := armed busy s [update_time]).
  destruct (@awaited_overrun 1000 armed_at _ Hno Hslow) as [Haw Hfates].
  assert (Hc : c = _update_func_cycle_busy busy s ExampleGUI) by exact (Hcycles k c H).
  assert (Hawaited : cycle_awaited c = Some (armed_at + 1000, Err TimeoutError)).
  { rewrite Hc, update_func_cycle_busy_awaited.
    change (_update_funcs ExampleGUI) with [update_time].
    rewrite pending_update_time. exact Haw. }
  repeat split.
  - rewrite Hc. reflexivity.
  - rewrite Hc, update_func_cycle_busy_printed, <- Hc, Hawaited. reflexivity.
  - exists (armed_at + 1000). split.
    + rewrite Hc, update_func_cycle_busy_tasks.
      change (_update_funcs ExampleGUI) with [update_time].
      change (_update_interval ExampleGUI) with 1000.
      rewrite pending_update_time. fold armed_at. rewrite Hfates. reflexivity.
    + pose proof (armed_not_before busy s [update_time]). unfold armed_at. lia.
  - lia.
Qed.

Lemma example_overruns_every_cycle_witness :
  cycle_funcs (_update_func_cycle_busy label_busy 2010 ExampleGUI) = [update_time] /\
  cycle_printed (_update_func_cycle_busy label_busy 2010 ExampleGUI) =
    [UpdateFuncExceeded 1000] /\
  (exists t,
     cycle_tasks (_update_func_cycle_busy label_busy 2010 ExampleGUI) = [Cancelled t] /\
     cycle_start (_update_func_cycle_busy label_busy 2010 ExampleGUI) + 1000 <= t) /\
  1000 * 2 <= cycle_start (_update_func_cycle_busy label_busy 2010 ExampleGUI).
Proof.
  apply (@example_overruns_every_cycle label_busy 4 2
           (_update_func_cycle_busy label_busy 2010 ExampleGUI)).
  reflexivity.
Defined.

(** ** How the update loop ends *)

Lemma gather_completion_raised s cs t e :
  gather_completion s cs = Some (t, Err e) -> first_error cs = Some (t, e).
Proof.
  unfold gather_completion. destruct (first_error cs) as [[t' e']|].
  - intros H. inversion H. reflexivity.
  - destruct (all_done s cs); discriminate.
Qed.

(** An exception with which the await of a cycle ends is the
    TimeoutError of the deadline or the exception of an update
    coroutine. *)
Lemma awaited_raised interval now funcs t e :
  resolve (awaited interval funcs) now = Some (t, Err e) ->
  e = TimeoutError \/ exists f d, In f funcs /\ fn_body f = Raises d e.
Proof.
  rewrite resolve_awaited. intros H.
  apply gather_completion_raised, first_error_in in H.
  destruct H as [H|[H|[]]]; [|discriminate].
  rewrite resolve_guarded in H.
  destruct (resolve (Gather (map call funcs)) now) as [[t' r]|] eqn:Hin.
  - destruct (t' <=? now + interval).
    + inversion H; subst. right.
      rewrite resolve_gather_calls in Hin.
      apply gather_completion_raised, first_error_in, started_in in Hin
        as (f & Hf & Hrun).
      exists f. destruct (fn_body f) as [d|d e'|]; cbn in Hrun; inversion Hrun; subst.
      exists d. auto.
    + inversion H. now left.
  - inversion H. now left.
Qed.

Lemma at_arming_raises busy armed_at called g d e :
  forall from,
    In g (at_arming busy armed_at from called) ->
    fn_body g = Raises d e ->
    exists f d', In f called /\ fn_body f = Raises d' e.
Proof.
  induction called as [|f others IH]; intros from Hin Hg; [destruct Hin|].
  cbn [at_arming] in Hin. destruct Hin as [<-|Hin].
  - cbn [fn_body] in Hg. destruct (fn_body f) as [d0|d0 e0|] eqn:Hb; try discriminate.
    cbn in Hg. inversion Hg; subst. exists f, d0. split; [now left | exact Hb].
  - destruct (IH _ Hin Hg) as (f' & d' & Hf' & Hb'). exists f', d'.
    split; [now right | exact Hb'].
Qed.

Lemma update_mainloop_busy_raised busy env :
  forall now self t e,
    snd (_update_func_mainloop_busy busy env now self) = Raised t e ->
    e <> TimeoutError /\
    exists before c f d,
      fst (_update_func_mainloop_busy busy env now self) = before ++ [c] /\
      In f (cycle_funcs c) /\ fn_body f = Raises d e.
Proof.
  induction env as [|during later IH]; intros now self t e H; [discriminate|].
  cbn [_update_func_mainloop_busy] in *.
  destruct (after_try (_update_func_cycle_busy busy now self)) as [[t0 [|e0]]|] eqn:Hat.
  - destruct (_application_closed (happen during self)); [discriminate|].
    specialize (IH t0 (happen during self) t e).
    destruct (_update_func_mainloop_busy busy later t0 (happen during self))
      as [cs fin]. cbn [fst snd] in *.
    destruct (IH H) as (He & before & c & f & d & -> & Hf & Hb).
    split; [exact He|].
    exists (_update_func_cycle_busy busy now self :: before), c, f, d. auto.
  - cbn [fst snd] in *. inversion H; subst t0 e0. clear H.
    unfold after_try in Hat.
    rewrite update_func_cycle_busy_awaited in Hat.
    destruct (resolve (awaited (_update_interval self)
                         (pending busy now (_update_funcs self)))
                (armed busy now (_update_funcs self))) as [[t1 [|e1]]|] eqn:Haw;
      try discriminate.
    assert (He : e1 = e /\ e <> TimeoutError).
    { destruct e1; inversion Hat; subst; split; try reflexivity; discriminate. }
    destruct He as [-> He]. split; [exact He|].
    destruct (awaited_raised _ _ _ Haw) as [Hto | (g & d & Hg & Hb)]; [contradiction|].
    destruct (at_arming_raises _ _ _ _ _ Hg Hb) as (f & d' & Hf & Hb').
    exists [], (_update_func_cycle_busy busy now self), f, d'. auto.
  - discriminate.
Qed.

